(** * Streamlink: drift-free polling and self-refreshing Vimeo HLS URLs

  A shallow embedding of

  - [PollingSegmentedStreamWorker.wait_and_reload]
    (src/streamlink/stream/segmented/polling.py), and
  - [VimeoHLSStream.url], [VimeoAPI.set_expiry_time] and
    [VimeoAPI.reload_auth_data] (src/streamlink/plugins/vimeo.py),

  together with the properties of the specification that concern them;
  and, with further properties read off the code, [VimeoHLSStream.__init__],
  [VimeoAPI.get_data] and [Vimeo._get_streams] of the same plugin, and
  [Showroom.stream_weight] and [Showroom._get_streams]
  (src/streamlink/plugins/showroom.py).

  Python objects are records, attribute assignment is a state update in a
  state-and-exception monad (an exception keeps the mutations made before
  it was raised), and everything the methods obtain from outside (clock
  readings, the outcome of the interruptible sleep, the outcome of the
  abstract [reload()], the answers of the HTTP session) is an explicit
  input of the embedded method. *)

From Stdlib Require Import ZArith String Ascii List Bool Lia Sorted DecimalString.
From stdpp Require Import base list.
Import ListNotations.

Local Open Scope string_scope.
Local Open Scope Z_scope.

(** ** Exceptions and the state-and-exception monad *)

(** The exceptions the two modules can raise.  [StreamError] is
  streamlink.exceptions.StreamError; [TypeError] and [IndexError] are the
  Python built-ins; [OtherError] stands for any other exception class an
  abstract collaborator may raise. *)
Inductive exn : Type :=
| StreamError (msg : string)
| TypeError
| IndexError
| OtherError (name : string).

Definition is_StreamError (e : exn) : bool :=
match e with StreamError _ => true | _ => false end.

Module Exc.

(** A call either returns a value or raises; in both cases the object
    state it leaves behind is recorded. *)
Inductive outcome (S A : Type) : Type :=
| Ret (a : A) (s : S)
| Raise (e : exn) (s : S).
Arguments Ret {S A} a s.
Arguments Raise {S A} e s.

Definition M (S A : Type) : Type := S -> outcome S A.

Definition ret {S A} (a : A) : M S A := fun s => Ret a s.

Definition bind {S A B} (c : M S A) (k : A -> M S B) : M S B :=
  fun s => match c s with
           | Ret a s' => k a s'
           | Raise e s' => Raise e s'
           end.

Definition raise {S A} (e : exn) : M S A := fun s => Raise e s.
Definition get {S} : M S S := fun s => Ret s s.
Definition modify {S} (f : S -> S) : M S unit := fun s => Ret tt (f s).

(** [try: c except StreamError as err: h err] *)
Definition try_except_StreamError {S A} (c : M S A) (h : string -> M S A) : M S A :=
  fun s => match c s with
           | Ret a s' => Ret a s'
           | Raise (StreamError msg) s' => h msg s'
           | Raise e s' => Raise e s'
           end.

Definition state_of {S A} (o : outcome S A) : S :=
  match o with Ret _ s => s | Raise _ s => s end.

Definition returns {S A} (o : outcome S A) : bool :=
  match o with Ret _ _ => true | Raise _ _ => false end.

End Exc.
Import Exc.

Declare Scope exc_scope.
Delimit Scope exc_scope with exc.
Notation "x <- c ;; k" := (bind c (fun x => k))
(at level 100, c at next level, right associativity) : exc_scope.
Notation "c ;;; k" := (bind c (fun _ => k))
(at level 100, right associativity) : exc_scope.

(** ** The polling worker (polling.py) *)

Module Polling.

(** What the worker does that an observer can see: each call of the
    abstract [reload()] (tagged with the value [_reload_last] holds at that
    moment, i.e. the fire time the call is accounted to) and each
    [log.warning]. *)
Inductive event : Type :=
| EvReload (anchor : Z)
| EvWarning (msg : string).

(** [PollingSegmentedStreamWorker].  Datetimes are counted in microseconds
    (the resolution of [datetime]), and so is [_reload_time], which the
    source keeps as a float number of seconds.
    [closed] is the stop event of the base worker (see [wait]). *)
Record Worker : Type := mkWorker {
  reload_time : Z;
  reload_last : Z;
  closed : bool;
  log : list event
}.

Definition set_reload_last (t : Z) (w : Worker) : Worker :=
  mkWorker (reload_time w) t (closed w) (log w).
Definition set_closed (b : bool) (w : Worker) : Worker :=
  mkWorker (reload_time w) (reload_last w) b (log w).
Definition add_event (e : event) (w : Worker) : Worker :=
  mkWorker (reload_time w) (reload_last w) (closed w) (log w ++ [e])%list.

(** [__init__]: [_reload_time = 6], [_reload_last = now()]. *)
Definition init (dt_now : Z) : Worker := mkWorker 6000000 dt_now false [].

(** What one call of [wait_and_reload] receives from outside. *)
Record Cycle : Type := mkCycle {
  time_completed : Z;          (* now() at the start of the call *)
  stop_signal : bool;          (* the stop signal arrives before the sleep runs out *)
  time_after : Z;              (* now() read after the sleep, if it is read *)
  reload_result : option exn   (* None: reload() returns; Some e: it raises e *)
}.

(** Modelled from the spec: [SegmentedStreamWorker.wait], which is not among
    the sources.  It is the interruptible sleep of section 4.1: it answers
    [True] when the time runs out and [False] when a stop signal
    interrupts it; [Stopped] is terminal, so once the signal was given
    every later sleep is interrupted at once. *)
Definition wait (stop : bool) (time : Z) : M Worker bool :=
  fun w => if closed w || stop
           then Ret false (set_closed true w)
           else Ret true w.

(** The abstract [reload()], as the cycle's input says it behaves. *)
Definition reload (c : Cycle) : M Worker unit :=
  (w <- get ;;
   modify (add_event (EvReload (reload_last w))) ;;;
   match reload_result c with
   | None => ret tt
   | Some e => raise e
   end)%exc.

(** The [time_wait] that [wait_and_reload] computes. *)
Definition time_wait_of (w : Worker) (c : Cycle) : Z :=
  let time_elapsed := Z.max 0 (time_completed c - reload_last w) in
  Z.max 0 (reload_time w - time_elapsed).

(** [wait_and_reload] *)
Definition wait_and_reload (c : Cycle) : M Worker unit :=
  (w <- get ;;
   let time_completed := time_completed c in
   let time_elapsed := Z.max 0 (time_completed - reload_last w) in
   let time_wait := Z.max 0 (reload_time w - time_elapsed) in
   completed <- wait (stop_signal c) time_wait ;;
   if completed : bool then
     (if 0 <? time_wait
      then modify (set_reload_last (time_completed + time_wait))
      else modify (set_reload_last (time_after c))) ;;;
     try_except_StreamError
       (reload c)
       (fun err => modify (add_event (EvWarning ("Reloading failed: " ++ err))))
   else ret tt)%exc.

(** Consecutive calls, one per element of [cs]; the first exception that
    leaves [wait_and_reload] ends the sequence. *)
Fixpoint run (cs : list Cycle) : M Worker unit :=
  match cs with
  | [] => ret tt
  | c :: cs' => (wait_and_reload c ;;; run cs')%exc
  end.

(** The fire times the calls of [reload()] were accounted to. *)
Fixpoint fire_times (l : list event) : list Z :=
  match l with
  | [] => []
  | EvReload a :: l' => a :: fire_times l'
  | EvWarning _ :: l' => fire_times l'
  end.

(** The value [wait_and_reload] gives [_reload_last] when the sleep runs
    out. *)
Definition next_anchor (w : Worker) (c : Cycle) : Z :=
  if 0 <? time_wait_of w c
  then time_completed c + time_wait_of w c
  else time_after c.



(** [anchor + interval], [anchor + 2 * interval], ... ([n] of them). *)
Fixpoint ticks (interval anchor : Z) (n : nat) : list Z :=
  match n with
  | O => []
  | S n' => (anchor + interval) :: ticks interval (anchor + interval) n'
  end.

(** Two workers that differ at most in the warnings they logged. *)
Definition same_schedule (w1 w2 : Worker) : Prop :=
  reload_time w1 = reload_time w2 /\
  reload_last w1 = reload_last w2 /\
  closed w1 = closed w2 /\
  fire_times (log w1) = fire_times (log w2).

Definition same_outcome (o1 o2 : outcome Worker unit) : Prop :=
  match o1, o2 with
  | Ret _ w1, Ret _ w2 => same_schedule w1 w2
  | Raise e1 w1, Raise e2 w2 => e1 = e2 /\ same_schedule w1 w2
  | _, _ => False
  end.

Definition set_reload_result (r : option exn) (c : Cycle) : Cycle :=
  mkCycle (time_completed c) (stop_signal c) (time_after c) r.

(** Three cycles of a worker started at time 0 with the default interval of
    six seconds; the second reload fails with a [StreamError]. *)
Definition three_cycles : list Cycle :=
  [ mkCycle 1500000 false 6000321 None;
    mkCycle 8250000 false 12000007 (Some (StreamError "timeout"));
    mkCycle 12000000 false 18004000 None ].

(** A cycle that starts ten seconds after the anchor, i.e. four seconds
    late, while the stop signal has been given. *)
Definition late_stopped_cycle : Cycle := mkCycle 10000000 true 10000001 None.

End Polling.

(** ** Strings that are only cut and compared: [split], [join], prefixes

  For these operations only the equality of characters matters, so the
  text is a Rocq string (the UTF-8 encoding of the Python [str], in which
  the separators the plugins use are single characters). *)

Module Str.

(** [s.startswith(p)], with what follows the prefix. *)

Fixpoint strip_prefix (p s : string) : option string :=
  match p, s with
  | EmptyString, _ => Some s
  | String a p', String b s' => if Ascii.eqb a b then strip_prefix p' s' else None
  | String _ _, EmptyString => None
  end.

(** [str.split(sep)] for a one-character separator. *)
Fixpoint split (sep : ascii) (s : string) : list string :=
  match s with
  | EmptyString => [EmptyString]
  | String c s' =>
      if Ascii.eqb c sep then EmptyString :: split sep s'
      else match split sep s' with
           | [] => [String c EmptyString]
           | p :: ps => String c p :: ps
           end
  end.

(** [sep.join(parts)] *)
Fixpoint join (sep : string) (parts : list string) : string :=
  match parts with
  | [] => EmptyString
  | [p] => p
  | p :: ps => p ++ sep ++ join sep ps
  end.

Definition non_empty (s : string) : bool :=
  match s with EmptyString => false | String _ _ => true end.

End Str.

(** ** Python's [str], as [re] and [int] see it *)

Module PyStr.

(** A character of a Python [str] is a Unicode code point.  [Latin1 a] is
    the code point below 256 with the number of [a]; [Wide code decimal]
    is the code point [code] from 256 on, together with what the
    interpreter's Unicode database says of it: [Some v] when it is a
    decimal digit (category Nd) of value [v], as ARABIC-INDIC DIGIT ONE
    (U+0661, value 1) is, and [None] otherwise.  Below 256 the only decimal
    digits are the ASCII ones. *)
Inductive char : Type :=
| Latin1 (a : ascii)
| Wide (code : N) (decimal : option Z).

Definition str : Type := list char.

(** The [str] a literal of ASCII characters denotes. *)
Definition py (s : string) : str := map Latin1 (list_ascii_of_string s).

(** [unicodedata.decimal(c, None)] *)
Definition decimal_of (c : char) : option Z :=
  match c with
  | Latin1 a =>
      let n := N_of_ascii a in
      if (48 <=? n)%N && (n <=? 57)%N then Some (Z.of_N n - 48) else None
  | Wide _ d => d
  end.

(** [\d] of [re] on a [str] pattern: any Unicode decimal digit. *)
Definition is_digit (c : char) : bool :=
  match decimal_of c with Some _ => true | None => false end.

(** [c == a] for a character [a] of a literal. *)
Definition is_char (a : ascii) (c : char) : bool :=
  match c with
  | Latin1 b => Ascii.eqb b a
  | Wide _ _ => false
  end.

Definition all_digits (s : str) : bool := forallb is_digit s.

(** [\d+] taken greedily at the head of [s]: the digits and what follows. *)
Fixpoint span_digits (s : str) : str * str :=
  match s with
  | [] => ([], [])
  | c :: s' =>
      if is_digit c
      then let (d, r) := span_digits s' in (c :: d, r)
      else ([], s)
  end.

(** [int(...)] on a string of decimal digits, which is all the plugin
    passes to it: every Unicode decimal digit counts with its value.  (The
    interpreter's limit on the length of the string,
    [sys.set_int_max_str_digits], is taken to be switched off.) *)
Fixpoint int_acc (acc : Z) (s : str) : Z :=
  match s with
  | [] => acc
  | c :: s' =>
      int_acc (10 * acc + match decimal_of c with Some v => v | None => 0 end) s'
  end.

Definition int (s : str) : Z := int_acc 0 s.

(** [s.startswith(p)] for a literal [p], with what follows the prefix. *)
Fixpoint strip_prefix (p : string) (s : str) : option str :=
  match p, s with
  | EmptyString, _ => Some s
  | String a p', c :: s' => if is_char a c then strip_prefix p' s' else None
  | String _ _, [] => None
  end.

(** [^(\d+)c] where [c] is a character that is not a digit: group 1 of the
    match at the head of [s], if there is one. *)
Definition digits_then (c : ascii) (s : str) : option str :=
  match span_digits s with
  | ([], _) => None
  | (d, c' :: _) => if is_char c c' then Some d else None
  | (_, []) => None
  end.

(** [str.split(sep)] for a one-character separator. *)
Fixpoint split (sep : ascii) (s : str) : list str :=
  match s with
  | [] => [[]]
  | c :: s' =>
      if is_char sep c then [] :: split sep s'
      else match split sep s' with
           | [] => [[c]]
           | p :: ps => (c :: p) :: ps
           end
  end.

(** [sep.join(parts)] *)
Fixpoint join (sep : str) (parts : list str) : str :=
  match parts with
  | [] => []
  | [p] => p
  | p :: ps => (p ++ sep ++ join sep ps)%list
  end.

Definition non_empty (s : str) : bool :=
  match s with [] => false | _ :: _ => true end.


(** The Arabic-Indic digits U+0660 to U+0669. *)
Definition arabic_indic (v : Z) : char := Wide (1632 + Z.to_N v) (Some v).

End PyStr.

(** ** The Vimeo plugin (vimeo.py) *)

Module Vimeo.
Import PyStr.
Local Open Scope list_scope.

(** [VimeoAPI._expiry_time_limit] *)
Definition _expiry_time_limit : Z := 60.

(** [VimeoAPI._expiry_re1 = re.compile(r"^exp=(\d+)~")]: group 1 of
    [search], if the pattern matches ([^] only matches at the head; the
    pattern is a [str] pattern, so [\d] is any Unicode decimal digit). *)
Definition _expiry_re1 (s : str) : option str :=
  match PyStr.strip_prefix "exp=" s with
  | Some r => PyStr.digits_then "~" r
  | None => None
  end.

(** [VimeoAPI._expiry_re2 = re.compile(r"^(\d+)-")] *)
Definition _expiry_re2 (s : str) : option str :=
  PyStr.digits_then "-" s.

Definition matches (m : option str) : bool :=
  match m with Some _ => true | None => false end.

(** [urllib.parse.ParseResult] *)
Record ParseResult : Type := mkParseResult {
  scheme : str;
  netloc : str;
  path : str;
  params : str;
  query : str;
  fragment : str
}.

(** [p._replace(path=...)] *)
Definition replace_path (p : ParseResult) (new_path : str) : ParseResult :=
  mkParseResult (scheme p) (netloc p) new_path (params p) (query p) (fragment p).

(** [VimeoAPI]: the attributes the refresh logic reads and writes
    ([auth_data] and [expiry_time] start as [None]). *)
Record VimeoAPI : Type := mkAPI {
  auth_data : option str;
  expiry_time : option Z;
  last_updated : Z;
  updating : bool
}.

(** [VimeoHLSStream] *)
Record VimeoHLSStream : Type := mkStream {
  _url : str;
  _parsed_url : ParseResult;
  _path_parts : list str;
  _need_update : bool
}.

(** What an access does that an observer can see: the [log.debug] lines and
    each call of [reload_auth_data] with its argument. *)
Inductive event : Type :=
| EvDebug (msg : string)
| EvReloadAuth (auth_part : str).

(** One stream and the API object it holds a reference to. *)
Record World : Type := mkWorld {
  api : VimeoAPI;
  stream : VimeoHLSStream;
  trace : list event
}.

Definition upd_api (f : VimeoAPI -> VimeoAPI) (w : World) : World :=
  mkWorld (f (api w)) (stream w) (trace w).
Definition upd_stream (f : VimeoHLSStream -> VimeoHLSStream) (w : World) : World :=
  mkWorld (api w) (f (stream w)) (trace w).
Definition emit (e : event) (w : World) : World :=
  mkWorld (api w) (stream w) (trace w ++ [e])%list.

Definition set_auth_data (t : option str) (a : VimeoAPI) : VimeoAPI :=
  mkAPI t (expiry_time a) (last_updated a) (updating a).
Definition set_expiry (e : option Z) (a : VimeoAPI) : VimeoAPI :=
  mkAPI (auth_data a) e (last_updated a) (updating a).
Definition set_last_updated (t : Z) (a : VimeoAPI) : VimeoAPI :=
  mkAPI (auth_data a) (expiry_time a) t (updating a).
Definition set_updating (b : bool) (a : VimeoAPI) : VimeoAPI :=
  mkAPI (auth_data a) (expiry_time a) (last_updated a) b.

Definition set_url (u : str) (s : VimeoHLSStream) : VimeoHLSStream :=
  mkStream u (_parsed_url s) (_path_parts s) (_need_update s).
Definition set_path_parts (l : list str) (s : VimeoHLSStream) : VimeoHLSStream :=
  mkStream (_url s) (_parsed_url s) l (_need_update s).
Definition set_need_update (b : bool) (s : VimeoHLSStream) : VimeoHLSStream :=
  mkStream (_url s) (_parsed_url s) (_path_parts s) b.

(** [l[i]] *)
Definition index (l : list str) (i : nat) : M World str :=
  match l !! i with
  | Some x => ret x
  | None => raise IndexError
  end.

(** [l[i] = x] *)
Definition assign (l : list str) (i : nat) (x : str) : M World (list str) :=
  if (i <? length l)%nat then ret (<[i := x]> l) else raise IndexError.

(** One entry of [videos["hls"]["cdns"]] together with the answer of
    [session.http.get(url)]: the path of the entry's URL, whether the
    response has a redirect history, and the path of the response's URL.
    The entry's URL is taken to be present and the request to be answered;
    [urlparse] is the standard library's. *)
Record Cdn : Type := mkCdn {
  cdn_path : str;
  cdn_history : bool;
  cdn_final_path : str
}.

(** [data["request"]["files"]]: the [hls] key is optional; its value lists
    the CDNs in the order of the dictionary. *)
Record Files : Type := mkFiles {
  hls : option (list (string * Cdn))
}.

(** [VimeoAPI.__init__] *)
Definition VimeoAPI_init (now : Z) : VimeoAPI := mkAPI None None now false.

(** [VimeoAPI.set_expiry_time]; [path] is [None] when the caller passes an
    [auth_data] that was never set, which [re] rejects with a [TypeError]. *)
Definition set_expiry_time (path : option str) : M World unit :=
  match path with
  | None => raise TypeError
  | Some p =>
      let m := match _expiry_re1 p with
               | Some d => Some d
               | None => _expiry_re2 p
               end in
      match m with
      | None => raise (StreamError "expiry value not found in URL")
      | Some d => modify (upd_api (set_expiry (Some (PyStr.int d - _expiry_time_limit))))
      end
  end.

(** The [for] loop of [reload_auth_data]: the value of [new_auth] when the
    loop ends. *)
Fixpoint scan_cdns (cdns : list (string * Cdn)) (auth_part : str)
  : M World (option str) :=
  match cdns with
  | [] => ret None
  | (_, video_data) :: rest =>
      let url_path := if cdn_history video_data
                      then cdn_final_path video_data
                      else cdn_path video_data in
      let path_parts := PyStr.split "/" url_path in
      (part <- index path_parts 1 ;;
       let new_auth :=
         if matches (_expiry_re1 part) && matches (_expiry_re1 auth_part)
         then Some part
         else if matches (_expiry_re2 part) && matches (_expiry_re2 auth_part)
         then Some part
         else None in
       match new_auth with
       | Some t =>
           if PyStr.non_empty t
           then modify (upd_api (set_auth_data (Some t))) ;;; ret (Some t)
           else scan_cdns rest auth_part
       | None => scan_cdns rest auth_part
       end)%exc
  end.

(** [VimeoAPI.reload_auth_data]; [now] is what [time()] answers and
    [data] what [get_data()] answers ([None] when it has no data; the
    request itself is taken to be answered).  The first line records the
    call in the trace. *)
Definition reload_auth_data (now : Z) (data : option Files) (auth_part : str)
  : M World unit :=
  (modify (emit (EvReloadAuth auth_part)) ;;;
   modify (upd_api (set_updating true)) ;;;
   modify (upd_api (set_last_updated now)) ;;;
   match data with
   | None => raise (StreamError "no video data found")
   | Some videos =>
       match hls videos with
       | None => raise (StreamError "hls key not found in video data")
       | Some cdns =>
           new_auth <- scan_cdns cdns auth_part ;;
           match new_auth with
           | None => raise (StreamError "failed to get new auth data from URL")
           | Some _ => modify (upd_api (set_updating false))
           end
       end
   end)%exc.

(** What one access of the [url] property receives from outside.  The
    readings of [time()] are counted in whole seconds, like the expiry
    times the tokens carry. *)
Record Access : Type := mkAccess {
  time_now : Z;              (* time() in the property *)
  refresh_time : Z;          (* time() in reload_auth_data, if it is called *)
  refresh_data : option Files (* get_data() in reload_auth_data, if it is called *)
}.

Section WithUrllib.

(** [ParseResult.geturl()], the standard library's. *)
Variable geturl : ParseResult -> str.

(** Lines 45 to 50 of the property: swap in the token of a finished
    refresh. *)
Definition apply_update : M World unit :=
  (w <- get ;;
   if _need_update (stream w) && negb (updating (api w)) then
     set_expiry_time (auth_data (api w)) ;;;
     w1 <- get ;;
     match auth_data (api w1) with
     | None => raise TypeError
     | Some t =>
         parts <- assign (_path_parts (stream w1)) 1 t ;;
         modify (upd_stream (set_path_parts parts)) ;;;
         modify (upd_stream (set_url
           (geturl (replace_path (_parsed_url (stream w1)) (PyStr.join (py "/") parts))))) ;;;
         modify (emit (EvDebug "Reloaded Vimeo HLS URL")) ;;;
         modify (upd_stream (set_need_update false))
     end
   else ret tt)%exc.

(** Lines 52 to 59: the expiry check. *)
Definition check_expiry (a : Access) : M World unit :=
  (w <- get ;;
   match expiry_time (api w) with
   | None => raise TypeError
   | Some expiry =>
       if time_now a >? expiry then
         if updating (api w) || (time_now a - last_updated (api w) <? _expiry_time_limit)
         then modify (upd_stream (set_need_update true))
         else
           modify (emit (EvDebug "Reloading Vimeo auth data")) ;;;
           part <- index (_path_parts (stream w)) 1 ;;
           reload_auth_data (refresh_time a) (refresh_data a) part ;;;
           modify (upd_stream (set_need_update true))
       else ret tt
   end)%exc.

(** The [url] property of [VimeoHLSStream]. *)
Definition url (a : Access) : M World str :=
  (apply_update ;;;
   check_expiry a ;;;
   w <- get ;;
   ret (_url (stream w)))%exc.

(** Consecutive accesses; the URLs they return, in order. *)
Fixpoint accesses (l : list Access) : M World (list str) :=
  match l with
  | [] => ret []
  | a :: l' => (u <- url a ;; us <- accesses l' ;; ret (u :: us))%exc
  end.

(** The state [apply_update] leaves when it swaps in the token [t], whose
    expiry time is [e]. *)
Definition swapped (t : str) (e : Z) (w : World) : World :=
  let parts := <[1%nat := t]> (_path_parts (stream w)) in
  upd_stream (set_need_update false)
    (emit (EvDebug "Reloaded Vimeo HLS URL")
      (upd_stream (set_url
          (geturl (replace_path (_parsed_url (stream w)) (PyStr.join (py "/") parts))))
        (upd_stream (set_path_parts parts)
          (upd_api (set_expiry (Some e)) w)))).

End WithUrllib.

(** A stand-in for [geturl] that is good enough for [http] and [https] URLs
    (the standard library's function treats more cases). *)
Definition plain_geturl (p : ParseResult) : str :=
  scheme p ++ py "://" ++ netloc p ++ path p ++
  (if PyStr.non_empty (query p) then py "?" ++ query p else py "").

(** [VimeoHLSStream.__init__] up to the call of the base class: the
    attributes, then [api.set_expiry_time(self._path_parts[1])].
    [parsed] is [urlparse(url)]. *)
Definition VimeoHLSStream_init (a : VimeoAPI) (url : str) (parsed : ParseResult)
  : outcome World unit :=
  let parts := PyStr.split "/" (path parsed) in
  let w := mkWorld a (mkStream url parsed parts false) [] in
  (part <- index parts 1 ;; set_expiry_time (Some part))%exc w.

(** The two token encodings: [exp=<digits>~...] and [<digits>-...]. *)
Inductive family : Type := ExpTilde | DigitsDash.

Definition family_of (token : str) : option family :=
  if matches (_expiry_re1 token) then Some ExpTilde
  else if matches (_expiry_re2 token) then Some DigitsDash
  else None.

Definition same_family (a b : str) : bool :=
  match family_of a, family_of b with
  | Some ExpTilde, Some ExpTilde => true
  | Some DigitsDash, Some DigitsDash => true
  | _, _ => false
  end.

(** A token written in the first, respectively the second, encoding, with
    [d] the digits of its expiry. *)
Definition exp_tilde_token (token d : str) : Prop :=
  PyStr.non_empty d = true /\ PyStr.all_digits d = true /\
  exists rest, token = py "exp=" ++ d ++ py "~" ++ rest.

Definition digits_dash_token (token d : str) : Prop :=
  PyStr.non_empty d = true /\ PyStr.all_digits d = true /\
  exists rest, token = d ++ py "-" ++ rest.

(** The expiry time [set_expiry_time] derives from a token. *)
Definition token_expiry (token : str) : option Z :=
  match _expiry_re1 token with
  | Some d => Some (PyStr.int d - _expiry_time_limit)
  | None =>
      match _expiry_re2 token with
      | Some d => Some (PyStr.int d - _expiry_time_limit)
      | None => None
      end
  end.

(** The token segment of a CDN entry after redirects. *)
Definition cdn_token (c : Cdn) : option str :=
  PyStr.split "/" (if cdn_history c then cdn_final_path c else cdn_path c) !! 1%nat.

(** The state [reload_auth_data] is in once it has started, and the state
    it returns in when it accepted the token [t]. *)
Definition refresh_started (now : Z) (auth_part : str) (w : World) : World :=
  upd_api (set_last_updated now)
    (upd_api (set_updating true) (emit (EvReloadAuth auth_part) w)).

Definition refresh_done (t : str) (w : World) : World :=
  upd_api (set_updating false) (upd_api (set_auth_data (Some t)) w).

(** The token segment of the stream's URL and the expiry time in force
    belong together. *)
Definition consistent (w : World) : Prop :=
  exists token e,
    _path_parts (stream w) !! 1%nat = Some token /\
    token_expiry token = Some e /\
    expiry_time (api w) = Some e.

(** A CDN entry the loop of [reload_auth_data] passes over: it has a token
    segment, of another encoding than [auth_part] (or of none). *)
Definition mismatched (auth_part : str) (entry : string * Cdn) : Prop :=
  exists t, cdn_token (snd entry) = Some t /\ same_family t auth_part = false.

(** The calls of [reload_auth_data] recorded in a trace. *)
Fixpoint refreshes (l : list event) : list str :=
  match l with
  | [] => []
  | EvReloadAuth t :: l' => t :: refreshes l'
  | EvDebug _ :: l' => refreshes l'
  end.

End Vimeo.

(** ** Scenarios *)

Module Scenario.
Import PyStr.
Local Open Scope list_scope.
Import Vimeo.

Definition old_url : str :=
  py "https://live.example/exp=1700000090~old/playlist.m3u8".

(** [urlparse(old_url)] *)
Definition old_parsed : ParseResult :=
  mkParseResult (py "https") (py "live.example") (py "/exp=1700000090~old/playlist.m3u8") (py "") (py "") (py "").

(** A stream whose token expires at 1700000090, opened on an API object that
    was created at 1700000000 ... *)
Definition young_world : World :=
  state_of (VimeoHLSStream_init (VimeoAPI_init 1700000000) old_url old_parsed).

(** ... and the same stream on an API object created long before. *)
Definition expired_world : World :=
  state_of (VimeoHLSStream_init (VimeoAPI_init 1699990000) old_url old_parsed).

(** The answer of the authoritative source: a CDN entry of the other
    encoding, then one whose redirect leads to a token that expires at
    1700000100. *)
Definition fresh_data : option Files :=
  Some (mkFiles (Some
    [ ("akamai", mkCdn (py "/1700000100-abc/playlist.m3u8") false (py ""));
      ("fastly", mkCdn (py "/redirect") true (py "/exp=1700000100~new/playlist.m3u8")) ])).

(** The access at 1700000031 that starts the refresh, and the state it
    leaves. *)
Definition first_access : Access := mkAccess 1700000031 1700000031 fresh_data.

Definition after_refresh : World :=
  state_of (url plain_geturl first_access expired_world).

(** A token whose expiry is written in Arabic-Indic digits:
    [exp=\u0661\u0667\u0660\u0660~abc]. *)
Definition arabic_indic_token : str :=
  py "exp=" ++ [arabic_indic 1; arabic_indic 7; arabic_indic 0; arabic_indic 0]
    ++ py "~abc".

(** Two possible next accesses: ten seconds later (the new token, less the
    margin, has run out by then), and sixty-nine seconds later while the
    source has no data. *)
Definition soon_access : Access := mkAccess 1700000041 1700000041 fresh_data.

End Scenario.

(** ** More of the polling worker: the order of the anchors *)

Module PollingOrder.
Import Polling.

(** The clock keeps up with the worker: every call of [wait_and_reload]
    reads a time that is not before the anchor, and the time read after the
    sleep is not before the time read at the start of the call. *)
Fixpoint clock_keeps_up (w : Worker) (cs : list Cycle) : Prop :=
  match cs with
  | [] => True
  | c :: cs' =>
      reload_last w <= time_completed c <= time_after c /\
      clock_keeps_up (state_of (wait_and_reload c w)) cs'
  end.

(** The fire times logged so far are in ascending order and none of them is
    later than the anchor. *)
Definition anchors_in_order (w : Worker) : Prop :=
  StronglySorted Z.le (fire_times (log w)) /\
  Forall (fun a => a <= reload_last w) (fire_times (log w)).


End PollingOrder.

(** ** More of [str]: [in], [endswith], [replace] *)

Module Text.

Definition startswith (s prefix : string) : bool :=
  match Str.strip_prefix prefix s with
  | Some _ => true
  | None => false
  end.

(** [sub in s] *)
Fixpoint contains (sub s : string) : bool :=
  startswith s sub ||
  match s with
  | EmptyString => false
  | String _ s' => contains sub s'
  end.

(** [s.endswith(suffix)] *)
Fixpoint endswith (s suffix : string) : bool :=
  String.eqb s suffix ||
  match s with
  | EmptyString => false
  | String _ s' => endswith s' suffix
  end.

(** [s.replace(old, new)] for a non-empty [old]: the occurrences of [old]
    are replaced from left to right, without overlap.  [n] bounds the
    number of steps; the length of [s] is enough. *)
Fixpoint replace_steps (n : nat) (old new s : string) : string :=
  match n with
  | O => s
  | S n' =>
      match Str.strip_prefix old s with
      | Some rest => new ++ replace_steps n' old new rest
      | None =>
          match s with
          | EmptyString => EmptyString
          | String c s' => String c (replace_steps n' old new s')
          end
      end
  end.

Definition replace (old new s : string) : string :=
  replace_steps (String.length s) old new s.

(** Truth value of an optional string: [None] and [""] are false. *)
Definition truthy (o : option string) : bool :=
  match o with
  | Some s => Str.non_empty s
  | None => false
  end.

(** [d[k] = v] on a dictionary kept as the list of its items, in insertion
    order. *)
Fixpoint dict_set {V : Type} (k : string) (v : V) (d : list (string * V))
  : list (string * V) :=
  match d with
  | [] => [(k, v)]
  | (k', v') :: d' =>
      if String.eqb k' k then (k', v) :: d' else (k', v') :: dict_set k v d'
  end.

(** [d.get(k)] *)
Fixpoint dict_get {V : Type} (k : string) (d : list (string * V)) : option V :=
  match d with
  | [] => None
  | (k', v') :: d' => if String.eqb k' k then Some v' else dict_get k d'
  end.

End Text.

(** ** The Vimeo plugin: [get_data] and [_get_streams] *)

Module VimeoStreams.
Import Text.

(** The streams the plugin hands out.  [Parsed] stands for a stream object
    built by [parse_variant_playlist] or [parse_manifest], which are not the
    plugin's own. *)
Inductive Stream : Type :=
| Parsed (description : string)
| HTTPStream (url : string)
| MuxedStream (stream : Stream) (subtitles : list (string * Stream)).

Record Progressive : Type := mkProgressive {
  prog_url : string;
  prog_quality : string
}.

Record TextTrack : Type := mkTextTrack {
  track_url : string;
  track_lang : string
}.

(** The data accepted by [_config_schema]: [request.files] with its optional
    keys [dash], [hls] (each the items of its [cdns], whose [url] may be
    [None]) and [progressive], and the optional [request.text_tracks]. *)
Record Config : Type := mkConfig {
  dash : option (list (string * option string));
  hls : option (list (string * option string));
  progressive : option (list Progressive);
  text_tracks : option (list TextTrack)
}.

(** What the session answers to the requests of [get_data]:
    [get_player_data()] and [get_api_url()] for the page, and
    [get_config_data(api_url)]. *)
Record Site : Type := mkSite {
  player_data : option Config;
  api_url : option string;
  config_data : string -> Config
}.

(** [VimeoAPI.get_data]; the state is the list of the URLs requested. *)
Definition get_data (url : string) (site : Site) : M (list string) (option Config) :=
  if contains "player.vimeo.com" url then
    (modify (fun reqs => reqs ++ [url])%list ;;;
     ret (player_data site))%exc
  else
    (modify (fun reqs => reqs ++ [url])%list ;;;
     if truthy (api_url site) then
       match api_url site with
       | Some api_url =>
           modify (fun reqs => reqs ++ [api_url])%list ;;;
           ret (Some (config_data site api_url))
       | None => ret None
       end
     else ret None)%exc.

(** The list [streams] and the [log.error] lines written so far. *)
Record Acc : Type := mkAcc {
  streams : list (string * Stream);
  errors : list string
}.

Definition extend (l : list (string * Stream)) (acc : Acc) : Acc :=
  mkAcc (streams acc ++ l)%list (errors acc).
Definition log_error (msg : string) (acc : Acc) : Acc :=
  mkAcc (streams acc) (errors acc ++ [msg])%list.

(** How a loop ends: it runs to its end, or the generator returns. *)
Inductive flow : Type :=
| Next (acc : Acc)
| Return (acc : Acc).

Inductive stream_type : Type := HLS | DASH.

Section WithCollaborators.

(** [VimeoHLSStream.parse_variant_playlist(session, url, api=api).items()],
    [DASHStream.parse_manifest(session, url).items()],
    [session.http.get(url).json()["url"]] and [urlparse(url).path]; each is
    taken to return. *)
Variable parse_variant_playlist : string -> list (string * Stream).
Variable parse_manifest : string -> list (string * Stream).
Variable live_manifest_url : string -> string.
Variable url_path : string -> string.

(** The manifest a DASH entry leads to, if its path is supported. *)
Definition dash_manifest (url : string) : option string :=
  let p := url_path url in
  if endswith p "dash.mpd" then Some (live_manifest_url url)
  else if endswith p "master.json" then Some (replace "master.json" "master.mpd" url)
  else None.

(** The inner loop of [_get_streams] over the CDNs of one stream type (the
    [log.trace] lines are left out). *)
Fixpoint for_cdns (ty : stream_type) (cdns : list (string * option string))
    (acc : Acc) : flow :=
  match cdns with
  | [] => Next acc
  | (_, video_data_url) :: rest =>
      if truthy video_data_url then
        match video_data_url with
        | Some url =>
            match ty with
            | HLS => for_cdns ty rest (extend (parse_variant_playlist url) acc)
            | DASH =>
                match dash_manifest url with
                | Some manifest => for_cdns ty rest (extend (parse_manifest manifest) acc)
                | None =>
                    for_cdns ty rest
                      (log_error ("Unsupported DASH path: " ++ url_path url) acc)
                end
            end
        | None => Next acc
        end
      else Return (log_error "This video requires a logged in session to view it" acc)
  end.

(** The outer loop over [("hls", "dash")]. *)
Definition for_stream_types (videos : Config) (acc : Acc) : flow :=
  let after_hls := match hls videos with
                   | None => Next acc
                   | Some cdns => for_cdns HLS cdns acc
                   end in
  match after_hls with
  | Return acc' => Return acc'
  | Next acc' =>
      match dash videos with
      | None => Next acc'
      | Some cdns => for_cdns DASH cdns acc'
      end
  end.

(** The dictionary [substreams]. *)
Definition substreams_of (tracks : list TextTrack) : list (string * Stream) :=
  fold_left
    (fun d s => dict_set (track_lang s) (HTTPStream ("https://vimeo.com" ++ track_url s)) d)
    tracks [].

Definition non_empty_list {A : Type} (o : option (list A)) : bool :=
  match o with
  | Some (_ :: _) => true
  | _ => false
  end.

(** [Vimeo._get_streams], after [self.api.get_data()] answered [data]: the
    pairs it yields, in order, and the errors it logs.  [mux_subtitles] is
    [self.get_option("mux_subtitles")]. *)
Definition _get_streams (mux_subtitles : bool) (data : option Config)
  : list (string * Stream) * list string :=
  match data with
  | None => ([], [])
  | Some videos =>
      match for_stream_types videos (mkAcc [] []) with
      | Return acc => ([], errors acc)
      | Next acc =>
          let streams :=
            (streams acc ++
             map (fun s => (prog_quality s, HTTPStream (prog_url s)))
                 (match progressive videos with Some l => l | None => [] end))%list in
          if mux_subtitles && non_empty_list (text_tracks videos) then
            let substreams :=
              substreams_of (match text_tracks videos with Some l => l | None => [] end) in
            (map (fun qs => (fst qs, MuxedStream (snd qs) substreams)) streams,
             errors acc)
          else (streams, errors acc)
      end
  end.

(** The URLs of the entries of a stream type are all present. *)
Definition all_present (cdns : option (list (string * option string))) : bool :=
  match cdns with
  | None => true
  | Some l => forallb (fun entry => truthy (snd entry)) l
  end.

(** The streams of the entries of a stream type, when all URLs are
    present: those of each HLS playlist, and those of each DASH manifest
    whose path is supported. *)
Definition streams_of (ty : stream_type) (cdns : option (list (string * option string)))
  : list (string * Stream) :=
  flat_map
    (fun entry =>
       match snd entry with
       | None => []
       | Some url =>
           match ty with
           | HLS => parse_variant_playlist url
           | DASH =>
               match dash_manifest url with
               | Some manifest => parse_manifest manifest
               | None => []
               end
           end
       end)
    (match cdns with Some l => l | None => [] end).

(** The errors logged for the DASH entries whose path is not supported. *)
Definition unsupported (ty : stream_type) (cdns : option (list (string * option string)))
  : list string :=
  flat_map
    (fun entry =>
       match ty, snd entry with
       | DASH, Some url =>
           match dash_manifest url with
           | Some _ => []
           | None => ["Unsupported DASH path: " ++ url_path url]
           end
       | _, _ => []
       end)
    (match cdns with Some l => l | None => [] end).

(** What [_get_streams] does to the list [streams] before it yields. *)
Definition wrapped (mux_subtitles : bool) (videos : Config)
    (streams : list (string * Stream)) : list (string * Stream) :=
  if mux_subtitles && non_empty_list (text_tracks videos) then
    map (fun qs =>
           (fst qs,
            MuxedStream (snd qs)
              (substreams_of (match text_tracks videos with Some l => l | None => [] end))))
        streams
  else streams.

End WithCollaborators.

(** Stand-ins for the collaborators: one variant, respectively one
    representation, per playlist; the path is what follows the host. *)
Definition one_variant (url : string) : list (string * Stream) :=
  [("720p", Parsed ("hls " ++ url))].
Definition one_representation (url : string) : list (string * Stream) :=
  [("1080p", Parsed ("dash " ++ url))].
Definition path_after_host (url : string) : string :=
  match Str.split "/" url with
  | _ :: _ :: _ :: segments => "/" ++ Str.join "/" segments
  | _ => EmptyString
  end.

(** A video with one HLS CDN, a second one without URL, and a progressive
    download. *)
Definition login_required : Config :=
  mkConfig None
    (Some [("akamai", Some "https://cdn.example/exp=1700000090~x/master.m3u8");
           ("fastly", None)])
    (Some [mkProgressive "https://cdn.example/video.mp4" "360p"])
    None.

(** A video with one HLS CDN, a VOD and an unsupported DASH entry, a
    progressive download and two subtitle tracks. *)
Definition full_video : Config :=
  mkConfig
    (Some [("akamai", Some "https://cdn.example/v/master.json");
           ("other", Some "https://cdn.example/v/manifest.xml")])
    (Some [("akamai", Some "https://cdn.example/exp=1700000090~x/master.m3u8")])
    (Some [mkProgressive "https://cdn.example/video.mp4" "360p"])
    (Some [mkTextTrack "/texttrack/1.vtt" "en"; mkTextTrack "/texttrack/2.vtt" "de"]).

End VimeoStreams.

(** ** The Showroom plugin (showroom.py) *)

Module Showroom.
Import Text.

(** [Showroom.LIVE_STATUS] *)
Definition LIVE_STATUS : Z := 2.

Section WithInt.

(** [int(...)]: [None] stands for the [ValueError]. *)
Variable py_int : string -> option Z.

(** [Showroom.stream_weight] *)
Definition stream_weight (stream : string) : M unit (Z * string) :=
  if contains "_" stream then
    match Str.split "_" stream !! 1%nat with
    | None => raise IndexError
    | Some piece =>
        match py_int piece with
        | None => raise (OtherError "ValueError")
        | Some n => ret (n, "bitrate")
        end
    end
  else ret (0, "none").

End WithInt.

(** What the session answers to the requests of [_get_streams]: the room id
    found in the page, the live info, the list of streaming URLs, and the
    content type of the response for the first of them (if the header is
    there). *)
Record Site : Type := mkSite {
  room_id : option string;
  live_status : Z;
  room_name : string;
  streaming_url_list : list (string * Z * string);
  content_type : option string
}.

(** The plugin object: its title, the requests it made, the lines it
    logged. *)
Record Plugin : Type := mkPlugin {
  title : option string;
  requests : list string;
  log : list string
}.

Definition request (url : string) (p : Plugin) : Plugin :=
  mkPlugin (title p) (requests p ++ [url])%list (log p).
Definition set_title (t : string) (p : Plugin) : Plugin :=
  mkPlugin (Some t) (requests p) (log p).
Definition write_log (line : string) (p : Plugin) : Plugin :=
  mkPlugin (title p) (requests p) (log p ++ [line])%list.

Section WithFormat.

(** [f"{quality}"] for an [int]. *)
Variable format_int : Z -> string.

(** [Showroom._get_streams] for the page [url]: the pairs of name and HLS
    URL it yields. *)
Definition _get_streams (url : string) (site : Site) : M Plugin (list (string * string)) :=
  (modify (request url) ;;;
   if truthy (room_id site) then
     modify (request "https://www.showroom-live.com/api/live/live_info") ;;;
     modify (set_title (room_name site)) ;;;
     if negb (live_status site =? LIVE_STATUS) then
       modify (write_log "This stream is currently offline") ;;;
       ret []
     else
       modify (request "https://www.showroom-live.com/api/live/streaming_url") ;;;
       match streaming_url_list site with
       | [] => ret []
       | (_, _, first_url) :: _ =>
           modify (request first_url) ;;;
           match content_type site with
           | None => raise (OtherError "KeyError")
           | Some ct =>
               if negb (String.eqb ct "application/x-mpegURL") then
                 modify (write_log "This stream is restricted") ;;;
                 ret []
               else
                 ret (map (fun s => (fst (fst s) ++ "_" ++ format_int (snd (fst s)), snd s))
                          (streaming_url_list site))
           end
       end
   else ret [])%exc.

End WithFormat.

(** Stand-ins for [int] and for the formatting of an [int], in decimal
    notation. *)
Definition decimal_int (s : string) : option Z :=
  option_map Z.of_int (NilZero.int_of_string s).
Definition decimal (z : Z) : string := NilZero.string_of_int (Z.to_int z).

(** A room that is live, with two streams. *)
Definition live_site : Site :=
  mkSite (Some "123456") 2 "A room"
    [("hls", 1024, "https://hls.example/a/1024.m3u8");
     ("hls_all", 0, "https://hls.example/a/all.m3u8")]
    (Some "application/x-mpegURL").

Definition new_plugin : Plugin := mkPlugin None [] [].

End Showroom.

(** ** More of the Vimeo stream: what its URL is made of *)

Module VimeoUrl.
Import PyStr.
Local Open Scope list_scope.
Import Vimeo.

Section WithUrllib.

Variable geturl : ParseResult -> str.

(** The URL of the stream is the original parse result with the current
    path parts put in. *)
Definition url_built (w : World) : Prop :=
  _url (stream w) =
    geturl (replace_path (_parsed_url (stream w))
              (PyStr.join (py "/") (_path_parts (stream w)))).

End WithUrllib.

(** An entry whose URL has no path, after one of the other encoding. *)
Definition broken_data : option Files :=
  Some (mkFiles (Some
    [ ("akamai", mkCdn (py "/1700000100-abc/playlist.m3u8") false (py ""));
      ("fastly", mkCdn (py "") false (py ""));
      ("level3", mkCdn (py "/exp=1700000100~new/playlist.m3u8") false (py "")) ])).

(** A second URL, on another CDN, whose token expires an hour later. *)
Definition other_url : str :=
  py "https://other.example/exp=1700003690~old/playlist.m3u8".
Definition other_parsed : ParseResult :=
  mkParseResult (py "https") (py "other.example") (py "/exp=1700003690~old/playlist.m3u8") (py "") (py "") (py "").

End VimeoUrl.

(** * Properties *)

(** ** The polling worker *)

Module PollingFacts.
Import Polling.

Lemma fire_times_app (l1 l2 : list event) :
  fire_times (l1 ++ l2) = (fire_times l1 ++ fire_times l2)%list.
Proof.
  induction l1 as [|e l1 IH]; simpl; [reflexivity|].
  destruct e; simpl; now rewrite IH.
Qed.

(** A sleep that is interrupted, or that starts after the stop signal:
    nothing else happens. *)
Lemma wait_and_reload_stopped (w : Worker) (c : Cycle) :
  closed w || stop_signal c = true ->
  wait_and_reload c w = Ret tt (set_closed true w).
Proof.
  intros H. unfold wait_and_reload, bind, get, wait. simpl.
  now rewrite H.
Qed.

(** A sleep that runs out: the anchor moves, then [reload()] is called. *)
Lemma wait_and_reload_fired (w : Worker) (c : Cycle) :
  closed w = false -> stop_signal c = false ->
  wait_and_reload c w =
    let w2 := add_event (EvReload (next_anchor w c))
                        (set_reload_last (next_anchor w c) w) in
    match reload_result c with
    | None => Ret tt w2
    | Some (StreamError msg) =>
        Ret tt (add_event (EvWarning ("Reloading failed: " ++ msg)) w2)
    | Some e => Raise e w2
    end.
Proof.
  intros Hc Hs.
  unfold wait_and_reload, next_anchor, time_wait_of, bind, get, wait,
    try_except_StreamError, reload, modify, ret, raise.
  simpl. rewrite Hc, Hs. simpl.
  destruct (0 <? _); simpl;
    destruct (reload_result c) as [[msg| | |name]|]; reflexivity.
Qed.

Lemma run_stopped (cs : list Cycle) (w : Worker) :
  closed w = true -> run cs w = Ret tt w.
Proof.
  revert w. induction cs as [|c cs IH]; intros w Hc; [reflexivity|].
  simpl. unfold bind. rewrite wait_and_reload_stopped by now rewrite Hc.
  destruct w as [rt rl cl lg]. simpl in Hc. subst cl.
  unfold set_closed. simpl. now apply IH.
Qed.



Lemma length_ticks (interval anchor : Z) (n : nat) :
  length (ticks interval anchor n) = n.
Proof. revert anchor. induction n; intros; simpl; auto. Qed.




(** C5. When the stop signal interrupts the sleep, [wait_and_reload] returns
    without calling [reload()] and without touching [_reload_last], and
    whatever cycles are attempted afterwards, no reload is ever called
    again. *)
Theorem stop_signal_ends_reloading (w : Worker) (c : Cycle) :
  stop_signal c = true ->
  exists w',
    wait_and_reload c w = Ret tt w' /\
    reload_last w' = reload_last w /\
    log w' = log w /\
    forall cs, exists w'',
      run cs w' = Ret tt w'' /\
      log w'' = log w /\
      reload_last w'' = reload_last w.
Proof.
  intros Hs. exists (set_closed true w).
  split; [apply wait_and_reload_stopped; rewrite Hs; apply orb_true_r|].
  split; [reflexivity|]. split; [reflexivity|].
  intros cs. exists (set_closed true w).
  split; [now apply run_stopped|]. split; reflexivity.
Qed.

Lemma stop_signal_ends_reloading_witness :
  exists w',
    wait_and_reload (mkCycle 1500000 true 2000000 None) (init 0) = Ret tt w' /\
    reload_last w' = 0 /\
    log w' = [] /\
    forall cs, exists w'',
      run cs w' = Ret tt w'' /\ log w'' = [] /\ reload_last w'' = 0.
Proof.
  apply (stop_signal_ends_reloading (init 0) (mkCycle 1500000 true 2000000 None)).
  reflexivity.
Defined.

Lemma same_schedule_refl (w : Worker) : same_schedule w w.
Proof. unfold same_schedule. auto. Qed.

Lemma same_schedule_step (c : Cycle) (w1 w2 : Worker) :
  same_schedule w1 w2 ->
  same_outcome (wait_and_reload c w1) (wait_and_reload c w2).
Proof.
  intros (Ht & Hl & Hc & Hf).
  assert (Hna : next_anchor w1 c = next_anchor w2 c)
    by (unfold next_anchor, time_wait_of; now rewrite Ht, Hl).
  destruct (closed w1 || stop_signal c) eqn:Hstop.
  - rewrite (wait_and_reload_stopped w1 c Hstop).
    rewrite (wait_and_reload_stopped w2 c) by now rewrite <- Hc.
    simpl. unfold same_schedule. simpl. auto.
  - apply orb_false_elim in Hstop. destruct Hstop as [Hc1 Hs].
    rewrite (wait_and_reload_fired w1 c Hc1 Hs).
    rewrite (wait_and_reload_fired w2 c) by congruence.
    rewrite Hna. cbv zeta.
    destruct (reload_result c) as [[msg| | |name]|]; simpl;
      unfold same_schedule; simpl; rewrite ?fire_times_app, Hf; auto.
Qed.

Lemma same_schedule_run (cs : list Cycle) (w1 w2 : Worker) :
  same_schedule w1 w2 ->
  same_outcome (run cs w1) (run cs w2).
Proof.
  revert w1 w2. induction cs as [|c cs IH]; intros w1 w2 H; [exact H|].
  simpl. unfold bind. pose proof (same_schedule_step c w1 w2 H) as Hstep.
  destruct (wait_and_reload c w1) as [[] s1|e1 s1],
           (wait_and_reload c w2) as [[] s2|e2 s2]; simpl in Hstep;
    try contradiction.
  - now apply IH.
  - exact Hstep.
Qed.

(** C9. When the sleep ran out and [reload()] raises a [StreamError], the
    error is caught and logged: [wait_and_reload] returns, the worker is in
    the state a successful reload leaves (the anchor already advanced) but
    for the warning in the log, and every later cycle runs as it would after
    a success.  Any other exception leaves [wait_and_reload] and ends the
    sequence of cycles. *)
Theorem reload_errors (w : Worker) (c : Cycle) :
  closed w = false -> stop_signal c = false ->
  (forall msg, reload_result c = Some (StreamError msg) ->
     exists w_ok,
       wait_and_reload (set_reload_result None c) w = Ret tt w_ok /\
       wait_and_reload c w =
         Ret tt (add_event (EvWarning ("Reloading failed: " ++ msg)) w_ok) /\
       reload_last w_ok = next_anchor w c /\
       forall cs,
         same_outcome
           (run cs (add_event (EvWarning ("Reloading failed: " ++ msg)) w_ok))
           (run cs w_ok)) /\
  (forall e, reload_result c = Some e -> is_StreamError e = false ->
     exists w',
       wait_and_reload c w = Raise e w' /\
       forall cs, run (c :: cs) w = Raise e w').
Proof.
  intros Hc Hs. split.
  - intros msg Hr.
    exists (add_event (EvReload (next_anchor w c)) (set_reload_last (next_anchor w c) w)).
    split; [|split; [|split]].
    + rewrite (wait_and_reload_fired w (set_reload_result None c) Hc Hs). reflexivity.
    + rewrite (wait_and_reload_fired w c Hc Hs), Hr. reflexivity.
    + reflexivity.
    + intros cs. apply same_schedule_run.
      unfold same_schedule. simpl. rewrite !fire_times_app. simpl.
      rewrite !app_nil_r. auto.
  - intros e Hr He.
    exists (add_event (EvReload (next_anchor w c)) (set_reload_last (next_anchor w c) w)).
    assert (Hstep : wait_and_reload c w =
      Raise e (add_event (EvReload (next_anchor w c)) (set_reload_last (next_anchor w c) w))).
    { rewrite (wait_and_reload_fired w c Hc Hs), Hr.
      destruct e; simpl in He; try discriminate; reflexivity. }
    split; [exact Hstep|].
    intros cs. cbn [run]. unfold bind. now rewrite Hstep.
Qed.

Lemma reload_errors_witness :
  (exists w_ok,
     wait_and_reload (mkCycle 1500000 false 6000321 None) (init 0) = Ret tt w_ok /\
     wait_and_reload (mkCycle 1500000 false 6000321 (Some (StreamError "timeout")))
       (init 0) =
       Ret tt (add_event (EvWarning "Reloading failed: timeout") w_ok) /\
     reload_last w_ok = 6000000) /\
  (exists w',
     wait_and_reload (mkCycle 1500000 false 6000321 (Some (OtherError "KeyError")))
       (init 0) = Raise (OtherError "KeyError") w').
Proof.
  split.
  - destruct (reload_errors (init 0)
                (mkCycle 1500000 false 6000321 (Some (StreamError "timeout")))
                eq_refl eq_refl) as [H _].
    destruct (H "timeout" eq_refl) as (w_ok & H1 & H2 & H3 & _).
    exists w_ok. split; [exact H1|]. split; [exact H2|exact H3].
  - destruct (reload_errors (init 0)
                (mkCycle 1500000 false 6000321 (Some (OtherError "KeyError")))
                eq_refl eq_refl) as [_ H].
    destruct (H (OtherError "KeyError") eq_refl eq_refl) as (w' & H1 & _).
    exists w'. exact H1.
Defined.

(** C8, as stated, fails: a cycle that starts four seconds late while the
    stop signal has been given computes a zero wait, and yet neither calls
    [reload()] nor moves the anchor. *)
Lemma overrun_while_stopped_does_not_fire :
  reload_time (init 0) <= time_completed late_stopped_cycle - reload_last (init 0) /\
  time_wait_of (init 0) late_stopped_cycle = 0 /\
  exists w',
    wait_and_reload late_stopped_cycle (init 0) = Ret tt w' /\
    log w' = [] /\
    reload_last w' = 0 /\
    reload_last w' <> time_after late_stopped_cycle.
Proof.
  split; [vm_compute; discriminate|]. split; [reflexivity|].
  exists (set_closed true (init 0)).
  split; [reflexivity|]. split; [reflexivity|]. split; [reflexivity|].
  vm_compute. discriminate.
Qed.

(** C8, amended. A cycle that starts when at least one interval has passed
    since the anchor, and whose wait is not cut short by a stop signal,
    computes a zero wait, calls [reload()] in that same call, and sets
    [_reload_last] to the time read after the wait; the previous anchor plus
    the interval plays no part. *)
Theorem overrun_resynchronizes (w : Worker) (c : Cycle) :
  closed w = false -> stop_signal c = false ->
  reload_time w <= time_completed c - reload_last w ->
  time_wait_of w c = 0 /\
  reload_last (state_of (wait_and_reload c w)) = time_after c /\
  fire_times (log (state_of (wait_and_reload c w))) =
    (fire_times (log w) ++ [time_after c])%list.
Proof.
  intros Hc Hs Hover.
  assert (Hw : time_wait_of w c = 0) by (unfold time_wait_of; lia).
  split; [exact Hw|].
  rewrite (wait_and_reload_fired w c Hc Hs).
  unfold next_anchor. rewrite Hw. simpl.
  destruct (reload_result c) as [[msg| | |name]|]; simpl;
    rewrite ?fire_times_app; simpl; rewrite ?app_nil_r; auto.
Qed.

Lemma overrun_resynchronizes_witness :
  time_wait_of (init 0) (mkCycle 10000000 false 10000001 None) = 0 /\
  reload_last (state_of (wait_and_reload (mkCycle 10000000 false 10000001 None) (init 0)))
    = 10000001 /\
  fire_times (log (state_of
    (wait_and_reload (mkCycle 10000000 false 10000001 None) (init 0)))) = [10000001].
Proof.
  apply (overrun_resynchronizes (init 0) (mkCycle 10000000 false 10000001 None)).
  - reflexivity.
  - reflexivity.
  - simpl. lia.
Defined.

End PollingFacts.

(** ** Strings *)

Module StrFacts.
Import Str.

Lemma strip_prefix_app (p s : string) : strip_prefix p (p ++ s) = Some s.
Proof. induction p as [|a p IH]; simpl; [reflexivity|]. now rewrite Ascii.eqb_refl. Qed.

Lemma strip_prefix_elim (p s r : string) : strip_prefix p s = Some r -> s = p ++ r.
Proof.
  revert s. induction p as [|a p IH]; intros s H; simpl in *.
  - now inversion H.
  - destruct s as [|b s]; [discriminate|].
    destruct (Ascii.eqb a b) eqn:E; [|discriminate].
    apply Ascii.eqb_eq in E. subst b. now rewrite (IH s H).
Qed.

Lemma split_not_nil (sep : ascii) (s : string) : split sep s <> [].
Proof.
  induction s as [|c s IH]; simpl; [discriminate|].
  destruct (Ascii.eqb c sep); [discriminate|].
  destruct (split sep s); [contradiction|discriminate].
Qed.

(** Splitting a string and joining the parts again gives the string back. *)
Lemma join_split (sep : ascii) (s : string) :
  join (String sep EmptyString) (split sep s) = s.
Proof.
  induction s as [|c s IH]; [reflexivity|].
  pose proof (split_not_nil sep s) as Hne. simpl.
  destruct (Ascii.eqb c sep) eqn:E.
  - apply Ascii.eqb_eq in E. subst c.
    destruct (split sep s) as [|p ps]; [contradiction|].
    cbn [join]. cbn [join] in IH. rewrite IH. reflexivity.
  - destruct (split sep s) as [|p ps]; [contradiction|].
    destruct ps as [|q ps]; cbn [join] in *; rewrite <- IH; reflexivity.
Qed.

Example split_path :
  split "/" "/exp=1700000090~old/playlist.m3u8" =
    [""; "exp=1700000090~old"; "playlist.m3u8"].
Proof. reflexivity. Qed.

Example split_no_slash : split "/" "playlist.m3u8" !! 1%nat = None.
Proof. reflexivity. Qed.

End StrFacts.

Module PyStrFacts.
Import PyStr.
Local Open Scope list_scope.

Lemma is_char_eq (a : ascii) (c : char) : is_char a c = true -> c = Latin1 a.
Proof.
  destruct c as [b|]; simpl; [|discriminate].
  intros H. apply Ascii.eqb_eq in H. now subst.
Qed.


Lemma py_cons (a : ascii) (p : string) : py (String a p) = Latin1 a :: py p.
Proof. reflexivity. Qed.


Lemma span_digits_spec (s : str) :
  s = fst (span_digits s) ++ snd (span_digits s) /\
  all_digits (fst (span_digits s)) = true /\
  match snd (span_digits s) with
  | [] => True
  | c :: _ => is_digit c = false
  end.
Proof.
  induction s as [|a s IH]; simpl; [auto|].
  destruct (is_digit a) eqn:Ha.
  - destruct (span_digits s) as [d r]. simpl in *.
    destruct IH as (H1 & H2 & H3). rewrite Ha, H2. subst s. auto.
  - simpl. auto.
Qed.


Lemma digits_then_elim (c : ascii) (s d : str) :
  digits_then c s = Some d ->
  non_empty d = true /\ all_digits d = true /\ exists r, s = d ++ Latin1 c :: r.
Proof.
  unfold digits_then. intros H.
  destruct (span_digits_spec s) as (H1 & H2 & _).
  destruct (span_digits s) as [d' r']. simpl in *.
  destruct d' as [|a d']; [discriminate|].
  destruct r' as [|c' r']; [discriminate|].
  destruct (is_char c c') eqn:E; [|discriminate].
  apply is_char_eq in E. subst c'. inversion H; subst d.
  split; [reflexivity|]. split; [exact H2|]. now exists r'.
Qed.

Lemma digits_then_head (c : ascii) (a : char) (s : str) :
  is_digit a = false -> digits_then c (a :: s) = None.
Proof. intros Ha. unfold digits_then. simpl. now rewrite Ha. Qed.


Lemma py_strip_prefix_elim (p : string) (s r : str) :
  strip_prefix p s = Some r -> s = py p ++ r.
Proof.
  revert s. induction p as [|a p IH]; intros s H; cbn [strip_prefix] in H.
  - now inversion H.
  - destruct s as [|b s]; [discriminate|].
    destruct (is_char a b) eqn:E; [|discriminate].
    apply is_char_eq in E. subst b.
    rewrite py_cons, (IH s H). reflexivity.
Qed.

Lemma py_split_not_nil (sep : ascii) (s : str) : split sep s <> [].
Proof.
  induction s as [|c s IH]; simpl; [discriminate|].
  destruct (is_char sep c); [discriminate|].
  destruct (split sep s); [contradiction|discriminate].
Qed.

(** Splitting a string and joining the parts again gives the string back. *)
Lemma py_join_split (sep : ascii) (s : str) :
  join [Latin1 sep] (split sep s) = s.
Proof.
  induction s as [|c s IH]; [reflexivity|].
  pose proof (py_split_not_nil sep s) as Hne. simpl.
  destruct (is_char sep c) eqn:E.
  - apply is_char_eq in E. subst c.
    destruct (split sep s) as [|p ps]; [contradiction|].
    cbn [join]. cbn [join] in IH. rewrite IH. reflexivity.
  - destruct (split sep s) as [|p ps]; [contradiction|].
    destruct ps as [|q ps]; cbn [join] in *; rewrite <- IH; reflexivity.
Qed.


Example py_split_path :
  split "/" (py "/exp=1700000090~old/playlist.m3u8") =
    [py ""; py "exp=1700000090~old"; py "playlist.m3u8"].
Proof. reflexivity. Qed.

Example py_split_no_slash : split "/" (py "playlist.m3u8") !! 1%nat = None.
Proof. reflexivity. Qed.

Example int_epoch : int (py "1700000000") = 1700000000.
Proof. reflexivity. Qed.

(** Digits of another script count as well: [int("١٧٠٠")] is 1700. *)
Example int_arabic_indic :
  int [arabic_indic 1; arabic_indic 7; arabic_indic 0; arabic_indic 0] = 1700.
Proof. reflexivity. Qed.

End PyStrFacts.

(** ** The Vimeo plugin *)

Module VimeoFacts.
Import PyStr PyStrFacts Vimeo.
Local Open Scope list_scope.


Lemma expiry_re1_elim (token d : str) :
  _expiry_re1 token = Some d -> exp_tilde_token token d.
Proof.
  unfold _expiry_re1, exp_tilde_token. intros H.
  destruct (strip_prefix "exp=" token) as [r|] eqn:Hp; [|discriminate].
  apply py_strip_prefix_elim in Hp.
  destruct (digits_then_elim _ _ _ H) as (H1 & H2 & rest & H3).
  split; [exact H1|]. split; [exact H2|]. exists rest. now rewrite Hp, H3.
Qed.


Lemma expiry_re2_elim (token d : str) :
  _expiry_re2 token = Some d -> digits_dash_token token d.
Proof.
  unfold _expiry_re2, digits_dash_token. intros H.
  destruct (digits_then_elim _ _ _ H) as (H1 & H2 & rest & H3).
  split; [exact H1|]. split; [exact H2|]. exists rest. exact H3.
Qed.

(** No token is written in both encodings. *)
Lemma expiry_re_exclusive (token : str) :
  matches (_expiry_re1 token) = true -> _expiry_re2 token = None.
Proof.
  unfold _expiry_re1, _expiry_re2. intros H.
  destruct (strip_prefix "exp=" token) as [r|] eqn:Hp; [|discriminate].
  apply py_strip_prefix_elim in Hp. subst token. now apply digits_then_head.
Qed.





(** [set_expiry_time] on a string, in terms of [token_expiry]. *)
Lemma set_expiry_time_token (token : str) (w : World) :
  set_expiry_time (Some token) w =
    match token_expiry token with
    | Some e => Ret tt (upd_api (set_expiry (Some e)) w)
    | None => Raise (StreamError "expiry value not found in URL") w
    end.
Proof.
  unfold set_expiry_time, token_expiry.
  destruct (_expiry_re1 token); [reflexivity|].
  destruct (_expiry_re2 token); reflexivity.
Qed.


Lemma same_family_cond (part auth_part : str) :
  (if matches (_expiry_re1 part) && matches (_expiry_re1 auth_part)
   then Some part
   else if matches (_expiry_re2 part) && matches (_expiry_re2 auth_part)
   then Some part
   else None)
  = if same_family part auth_part then Some part else None.
Proof.
  unfold same_family, family_of.
  pose proof (expiry_re_exclusive part) as Hp.
  pose proof (expiry_re_exclusive auth_part) as Ha.
  destruct (matches (_expiry_re1 part)), (matches (_expiry_re1 auth_part));
    simpl; try rewrite (Hp eq_refl); try rewrite (Ha eq_refl); simpl;
    try reflexivity;
    destruct (matches (_expiry_re2 part)); simpl; try reflexivity;
    destruct (matches (_expiry_re2 auth_part)); reflexivity.
Qed.

Lemma same_family_token (t auth_part : str) :
  same_family t auth_part = true ->
  non_empty t = true /\ exists e, token_expiry t = Some e.
Proof.
  unfold same_family, family_of, token_expiry. intros H.
  destruct (_expiry_re1 t) as [d|] eqn:E1; simpl in H.
  - apply expiry_re1_elim in E1. destruct E1 as (_ & _ & rest & ->). eauto.
  - destruct (_expiry_re2 t) as [d|] eqn:E2; simpl in H; [|discriminate].
    apply expiry_re2_elim in E2. destruct E2 as (Hne & _ & rest & ->).
    destruct d; [discriminate|]. eauto.
Qed.

(** One turn of the loop. *)
Lemma scan_cdns_cons (name : string) (c : Cdn) (rest : list (string * Cdn))
    (auth_part : str) (w : World) :
  scan_cdns ((name, c) :: rest) auth_part w =
    match cdn_token c with
    | None => Raise IndexError w
    | Some t =>
        if same_family t auth_part
        then Ret (Some t) (upd_api (set_auth_data (Some t)) w)
        else scan_cdns rest auth_part w
    end.
Proof.
  cbn [scan_cdns]. unfold bind, index, cdn_token.
  destruct (split "/" _ !! 1%nat) as [t|]; [|reflexivity].
  unfold ret at 1. rewrite same_family_cond.
  destruct (same_family t auth_part) eqn:E; [|reflexivity].
  destruct (same_family_token t auth_part E) as [-> _]. reflexivity.
Qed.

Lemma scan_cdns_skip (pre l : list (string * Cdn)) (auth_part : str) (w : World) :
  Forall (mismatched auth_part) pre ->
  scan_cdns (pre ++ l)%list auth_part w = scan_cdns l auth_part w.
Proof.
  induction 1 as [|[name c] pre (t & Ht & Hf) _ IH]; [reflexivity|].
  simpl app. rewrite scan_cdns_cons. simpl in Ht. now rewrite Ht, Hf.
Qed.

Lemma scan_cdns_cases (cdns : list (string * Cdn)) (auth_part : str) (w : World) :
  (exists t, same_family t auth_part = true /\
             scan_cdns cdns auth_part w =
               Ret (Some t) (upd_api (set_auth_data (Some t)) w)) \/
  scan_cdns cdns auth_part w = Ret None w \/
  scan_cdns cdns auth_part w = Raise IndexError w.
Proof.
  induction cdns as [|[name c] rest IH]; [right; left; reflexivity|].
  rewrite scan_cdns_cons.
  destruct (cdn_token c) as [t|]; [|right; right; reflexivity].
  destruct (same_family t auth_part) eqn:E; [|exact IH].
  left. exists t. auto.
Qed.

(** [reload_auth_data], once the loop has run. *)
Lemma reload_auth_data_scan (now : Z) (cdns : list (string * Cdn))
    (auth_part : str) (w : World) :
  reload_auth_data now (Some (mkFiles (Some cdns))) auth_part w =
    match scan_cdns cdns auth_part (refresh_started now auth_part w) with
    | Ret (Some _) w' => Ret tt (upd_api (set_updating false) w')
    | Ret None w' =>
        Raise (StreamError "failed to get new auth data from URL") w'
    | Raise e w' => Raise e w'
    end.
Proof.
  unfold reload_auth_data, bind, modify, refresh_started. simpl.
  destruct (scan_cdns cdns auth_part _) as [[t|] w'|e w']; reflexivity.
Qed.

(** Every call of [reload_auth_data] ends in one of two ways. *)
Lemma reload_auth_data_cases (now : Z) (data : option Files)
    (auth_part : str) (w : World) :
  (exists t, same_family t auth_part = true /\
     reload_auth_data now data auth_part w =
       Ret tt (refresh_done t (refresh_started now auth_part w))) \/
  (exists e,
     reload_auth_data now data auth_part w =
       Raise e (refresh_started now auth_part w)).
Proof.
  destruct data as [[[cdns|]]|].
  - rewrite reload_auth_data_scan.
    destruct (scan_cdns_cases cdns auth_part (refresh_started now auth_part w))
      as [(t & Ht & ->)|[->| ->]]; eauto.
  - right. eexists. reflexivity.
  - right. eexists. reflexivity.
Qed.

(** On entries that all have a token segment, [reload_auth_data] goes
    through the CDN entries in order, passes over those whose token after
    redirects is of another encoding than [auth_part], and installs the
    token of the first entry of the same encoding ([exp=<digits>~] or
    [<digits>-]); when every entry is passed over it fails with a
    [StreamError]. *)
Theorem refresh_takes_first_same_family (now : Z) (auth_part : str)
    (cdns : list (string * Cdn)) (w : World) :
  (forall pre name c post t,
     cdns = (pre ++ (name, c) :: post)%list ->
     Forall (mismatched auth_part) pre ->
     cdn_token c = Some t ->
     same_family t auth_part = true ->
     reload_auth_data now (Some (mkFiles (Some cdns))) auth_part w =
       Ret tt (refresh_done t (refresh_started now auth_part w)) /\
     auth_data (api (refresh_done t (refresh_started now auth_part w))) = Some t) /\
  (Forall (mismatched auth_part) cdns ->
     reload_auth_data now (Some (mkFiles (Some cdns))) auth_part w =
       Raise (StreamError "failed to get new auth data from URL")
             (refresh_started now auth_part w)).
Proof.
  split.
  - intros pre name c post t -> Hpre Ht Hf. split; [|reflexivity].
    rewrite reload_auth_data_scan, (scan_cdns_skip _ _ _ _ Hpre), scan_cdns_cons.
    now rewrite Ht, Hf.
  - intros Hall. rewrite reload_auth_data_scan.
    rewrite <- (app_nil_r cdns), (scan_cdns_skip _ _ _ _ Hall). reflexivity.
Qed.

Lemma refreshes_app (l1 l2 : list event) :
  refreshes (l1 ++ l2) = (refreshes l1 ++ refreshes l2)%list.
Proof.
  induction l1 as [|e l1 IH]; simpl; [reflexivity|].
  destruct e; simpl; now rewrite IH.
Qed.

Section Access.

Variable geturl : ParseResult -> str.

Local Abbreviation apply_update := (apply_update geturl).
Local Abbreviation url := (url geturl).
Local Abbreviation accesses := (accesses geturl).
Local Abbreviation swapped := (swapped geturl).

(** The ways [apply_update] can end: nothing to do; the swap; an exception
    of [set_expiry_time] that leaves the state alone; or, for a URL without
    a token segment, an [IndexError] after the expiry time was set. *)
Lemma apply_update_cases (w : World) :
  (_need_update (stream w) && negb (updating (api w)) = false /\
   apply_update w = Ret tt w) \/
  (_need_update (stream w) = true /\ updating (api w) = false /\
   ((exists t e,
       auth_data (api w) = Some t /\ token_expiry t = Some e /\
       (1 < length (_path_parts (stream w)))%nat /\
       apply_update w = Ret tt (swapped t e w)) \/
    (exists ex, apply_update w = Raise ex w) \/
    (exists t e,
       auth_data (api w) = Some t /\ token_expiry t = Some e /\
       (length (_path_parts (stream w)) <= 1)%nat /\
       apply_update w = Raise IndexError (upd_api (set_expiry (Some e)) w)))).
Proof.
  destruct w as [[ad ex lu up] [u p parts nu] tr].
  unfold Vimeo.apply_update, bind, get. simpl.
  destruct nu; [|left; auto]. destruct up; [left; auto|]. simpl.
  right. split; [reflexivity|]. split; [reflexivity|].
  destruct ad as [t|]; [|right; left; eexists; reflexivity].
  rewrite set_expiry_time_token.
  destruct (token_expiry t) as [e|] eqn:He; [|right; left; eexists; reflexivity].
  simpl. unfold assign.
  destruct (1 <? length parts)%nat eqn:Hl.
  - left. exists t, e. apply Nat.ltb_lt in Hl. auto.
  - right. right. exists t, e. apply Nat.ltb_ge in Hl. auto.
Qed.

(** [apply_update] neither starts a refresh nor touches the refresh state. *)
Lemma apply_update_keeps (w : World) :
  updating (api (state_of (apply_update w))) = updating (api w) /\
  last_updated (api (state_of (apply_update w))) = last_updated (api w) /\
  auth_data (api (state_of (apply_update w))) = auth_data (api w) /\
  refreshes (trace (state_of (apply_update w))) = refreshes (trace w).
Proof.
  destruct (apply_update_cases w)
    as [[_ ->]|(_ & _ & [(t & e & _ & _ & _ & ->)|[[ex ->]|(t & e & _ & _ & _ & ->)]])];
    simpl; rewrite ?refreshes_app; simpl; rewrite ?app_nil_r; auto.
Qed.

Lemma check_expiry_fresh (a : Access) (w : World) (e : Z) :
  expiry_time (api w) = Some e -> time_now a <= e ->
  check_expiry a w = Ret tt w.
Proof.
  intros He Hle. unfold check_expiry, bind, get. rewrite He.
  destruct (time_now a >? e) eqn:E; [|reflexivity].
  apply Z.gtb_lt in E. lia.
Qed.

Lemma check_expiry_throttled (a : Access) (w : World) (e : Z) :
  expiry_time (api w) = Some e -> e < time_now a ->
  updating (api w) = true \/ time_now a - last_updated (api w) < _expiry_time_limit ->
  check_expiry a w = Ret tt (upd_stream (set_need_update true) w).
Proof.
  intros He Hlt Hor. unfold check_expiry, bind, get. rewrite He.
  destruct (time_now a >? e) eqn:E; [|rewrite Z.gtb_ltb in E; apply Z.ltb_ge in E; lia].
  destruct Hor as [-> | Hthr]; [reflexivity|].
  apply Z.ltb_lt in Hthr. rewrite Hthr, orb_true_r. reflexivity.
Qed.

Lemma check_expiry_refresh (a : Access) (w : World) (e : Z) :
  expiry_time (api w) = Some e -> e < time_now a ->
  updating (api w) = false ->
  _expiry_time_limit <= time_now a - last_updated (api w) ->
  check_expiry a w =
    match _path_parts (stream w) !! 1%nat with
    | None => Raise IndexError (emit (EvDebug "Reloading Vimeo auth data") w)
    | Some part =>
        match reload_auth_data (refresh_time a) (refresh_data a) part
                (emit (EvDebug "Reloading Vimeo auth data") w) with
        | Ret _ w' => Ret tt (upd_stream (set_need_update true) w')
        | Raise ex w' => Raise ex w'
        end
    end.
Proof.
  intros He Hlt Hup Hthr. unfold check_expiry, bind, get. rewrite He, Hup.
  destruct (time_now a >? e) eqn:E; [|rewrite Z.gtb_ltb in E; apply Z.ltb_ge in E; lia].
  apply Z.ltb_ge in Hthr. rewrite Hthr. simpl.
  unfold index. destruct (_path_parts (stream w) !! 1%nat); reflexivity.
Qed.

Lemma url_unfold (a : Access) (w : World) :
  url a w =
    match apply_update w with
    | Ret _ w1 =>
        match check_expiry a w1 with
        | Ret _ w2 => Ret (_url (stream w2)) w2
        | Raise ex w2 => Raise ex w2
        end
    | Raise ex w1 => Raise ex w1
    end.
Proof.
  unfold Vimeo.url, bind, get, ret.
  destruct (apply_update w) as [[] w1|ex w1]; [|reflexivity].
  destruct (check_expiry a w1) as [[] w2|ex w2]; reflexivity.
Qed.

Lemma apply_update_idle (w : World) :
  _need_update (stream w) && negb (updating (api w)) = false ->
  apply_update w = Ret tt w.
Proof. intros H. unfold Vimeo.apply_update, bind, get. now rewrite H. Qed.


(** The expiry check leaves the URL, its parts and the expiry time alone. *)
Lemma check_expiry_keeps (a : Access) (w : World) :
  _url (stream (state_of (check_expiry a w))) = _url (stream w) /\
  _parsed_url (stream (state_of (check_expiry a w))) = _parsed_url (stream w) /\
  _path_parts (stream (state_of (check_expiry a w))) = _path_parts (stream w) /\
  expiry_time (api (state_of (check_expiry a w))) = expiry_time (api w).
Proof.
  destruct (expiry_time (api w)) as [e|] eqn:He;
    [|unfold check_expiry, bind, get; rewrite He; simpl; auto].
  destruct (Z_lt_le_dec e (time_now a)) as [Hlt|Hle];
    [|rewrite (check_expiry_fresh a w e He Hle); simpl; auto].
  destruct (updating (api w)) eqn:Hu.
  { rewrite (check_expiry_throttled a w e He Hlt (or_introl Hu)). simpl. auto. }
  destruct (Z_lt_le_dec (time_now a - last_updated (api w)) _expiry_time_limit)
    as [Hthr|Hthr].
  { rewrite (check_expiry_throttled a w e He Hlt (or_intror Hthr)). simpl. auto. }
  rewrite (check_expiry_refresh a w e He Hlt Hu Hthr).
  destruct (_path_parts (stream w) !! 1%nat) as [part|]; [|simpl; auto].
  destruct (reload_auth_data_cases (refresh_time a) (refresh_data a) part
              (emit (EvDebug "Reloading Vimeo auth data") w))
    as [(t & _ & ->)|(ex & ->)]; simpl; auto.
Qed.


(** An access while a refresh is in progress or throttled, with no finished
    refresh waiting to be swapped in and the token expired. *)
Lemma url_throttled (a : Access) (w : World) (e : Z) :
  expiry_time (api w) = Some e -> e < time_now a ->
  updating (api w) = true \/ time_now a - last_updated (api w) < _expiry_time_limit ->
  _need_update (stream w) && negb (updating (api w)) = false ->
  url a w = Ret (_url (stream w)) (upd_stream (set_need_update true) w).
Proof.
  intros He Hlt Hor Hidle.
  rewrite url_unfold, (apply_update_idle w Hidle).
  now rewrite (check_expiry_throttled a w e He Hlt Hor).
Qed.

(** An access while a refresh is in progress or throttled starts no
    refresh. *)
Lemma url_no_refresh (a : Access) (w : World) :
  updating (api w) = true \/ time_now a - last_updated (api w) < _expiry_time_limit ->
  refreshes (trace (state_of (url a w))) = refreshes (trace w).
Proof.
  intros Hor. rewrite url_unfold.
  destruct (apply_update_keeps w) as (Hu & Hl & _ & Hr).
  destruct (apply_update w) as [[] w1|ex w1]; simpl in *; [|exact Hr].
  rewrite <- Hu, <- Hl, <- Hr in *. clear Hu Hl Hr.
  destruct (expiry_time (api w1)) as [e|] eqn:He.
  - destruct (Z_lt_le_dec e (time_now a)) as [Hlt|Hle].
    + now rewrite (check_expiry_throttled a w1 e He Hlt Hor).
    + now rewrite (check_expiry_fresh a w1 e He Hle).
  - unfold check_expiry, bind, get. now rewrite He.
Qed.

(** C3, amended. While a refresh is in progress, or less than 60 seconds
    after the last one started, no access calls [reload_auth_data]; and
    such an access made strictly after the expiry time
    ([time_now > expiry_time]), with no finished refresh waiting to be
    swapped in, sets [_need_update] and returns the URL unchanged. *)
Theorem no_refresh_while_updating_or_throttled (w : World) (a : Access) :
  updating (api w) = true \/ time_now a - last_updated (api w) < _expiry_time_limit ->
  refreshes (trace (state_of (url a w))) = refreshes (trace w) /\
  (forall e,
     expiry_time (api w) = Some e -> e < time_now a ->
     _need_update (stream w) && negb (updating (api w)) = false ->
     url a w = Ret (_url (stream w)) (upd_stream (set_need_update true) w)).
Proof.
  intros Hor. split.
  - now apply url_no_refresh.
  - intros e He Hlt Hidle. now apply (url_throttled a w e).
Qed.



Lemma url_updating (a : Access) (w : World) :
  updating (api w) = true ->
  state_of (url a w) = w \/
  state_of (url a w) = upd_stream (set_need_update true) w.
Proof.
  intros Hu. rewrite url_unfold, apply_update_idle
    by (rewrite Hu; apply andb_false_r).
  destruct (expiry_time (api w)) as [e|] eqn:He.
  - destruct (Z_lt_le_dec e (time_now a)) as [Hlt|Hle].
    + rewrite (check_expiry_throttled a w e He Hlt (or_introl Hu)). now right.
    + rewrite (check_expiry_fresh a w e He Hle). now left.
  - unfold check_expiry, bind, get. rewrite He. now left.
Qed.

Lemma accesses_cons (a : Access) (l : list Access) (w : World) :
  accesses (a :: l) w =
    match url a w with
    | Ret u w1 =>
        match accesses l w1 with
        | Ret us w2 => Ret (u :: us) w2
        | Raise ex w2 => Raise ex w2
        end
    | Raise ex w1 => Raise ex w1
    end.
Proof.
  cbn [Vimeo.accesses]. unfold bind, ret.
  destruct (url a w) as [u w1|ex w1]; [|reflexivity].
  destruct (Vimeo.accesses geturl l w1); reflexivity.
Qed.

Lemma accesses_updating (l : list Access) (w : World) :
  updating (api w) = true ->
  api (state_of (accesses l w)) = api w /\
  trace (state_of (accesses l w)) = trace w.
Proof.
  revert w. induction l as [|a l IH]; intros w Hu; [auto|].
  rewrite accesses_cons.
  assert (Hs : api (state_of (url a w)) = api w /\
               trace (state_of (url a w)) = trace w)
    by (destruct (url_updating a w Hu) as [-> | ->]; auto).
  destruct (url a w) as [u w1|ex w1]; simpl in Hs; [|exact Hs].
  destruct Hs as [Ha1 Ht1].
  destruct (IH w1) as [Ha2 Ht2]; [now rewrite Ha1|].
  destruct (accesses l w1) as [us w2|ex w2]; simpl in *; split; congruence.
Qed.

Lemma accesses_expired (l : list Access) (w : World) (e : Z) :
  updating (api w) = true -> expiry_time (api w) = Some e ->
  Forall (fun a => e < time_now a) l ->
  accesses l w =
    Ret (map (fun _ => _url (stream w)) l)
        (match l with [] => w | _ => upd_stream (set_need_update true) w end).
Proof.
  intros Hu He Hall. revert w Hu He.
  induction Hall as [|a l Ha _ IH]; intros w Hu He; [reflexivity|].
  rewrite accesses_cons.
  rewrite (url_throttled a w e He Ha (or_introl Hu))
    by (rewrite Hu; apply andb_false_r).
  rewrite (IH (upd_stream (set_need_update true) w) Hu He).
  destruct l; reflexivity.
Qed.

(** C10. A call of [reload_auth_data] that fails (no video data, no [hls]
    key, or no entry of the same encoding) leaves [updating] set and
    [last_updated] at the time the attempt started; [updating] is cleared
    only when the call returns.  From then on no access changes the API
    object or starts a refresh, and while the token stays expired every
    access sets [_need_update] and returns the URL as it is. *)
Theorem failed_refresh_is_never_retried (w : World) (now : Z)
    (data : option Files) (auth_part : str) :
  (data = None \/
   (exists f, data = Some f /\ hls f = None) \/
   (exists cdns, data = Some (mkFiles (Some cdns)) /\
                 Forall (mismatched auth_part) cdns) ->
   returns (reload_auth_data now data auth_part w) = false) /\
  (returns (reload_auth_data now data auth_part w) = true ->
   updating (api (state_of (reload_auth_data now data auth_part w))) = false) /\
  (returns (reload_auth_data now data auth_part w) = false ->
   let w' := state_of (reload_auth_data now data auth_part w) in
   updating (api w') = true /\
   last_updated (api w') = now /\
   (forall l,
      api (state_of (accesses l w')) = api w' /\
      refreshes (trace (state_of (accesses l w'))) = refreshes (trace w')) /\
   (forall e l,
      expiry_time (api w') = Some e ->
      Forall (fun a => e < time_now a) l -> l <> [] ->
      accesses l w' =
        Ret (map (fun _ => _url (stream w')) l)
            (upd_stream (set_need_update true) w'))).
Proof.
  split; [|split].
  - intros [->|[(f & -> & Hf)|(cdns & -> & Hall)]].
    + reflexivity.
    + destruct f as [h]. simpl in Hf. subst h. reflexivity.
    + rewrite reload_auth_data_scan.
      rewrite <- (app_nil_r cdns), (scan_cdns_skip _ _ _ _ Hall). reflexivity.
  - destruct (reload_auth_data_cases now data auth_part w)
      as [(t & _ & ->)|(ex & ->)]; [reflexivity|discriminate].
  - destruct (reload_auth_data_cases now data auth_part w)
      as [(t & _ & ->)|(ex & ->)]; [discriminate|].
    intros _. cbv zeta. cbn [state_of].
    set (w' := refresh_started now auth_part w).
    assert (Hu : updating (api w') = true) by reflexivity.
    split; [exact Hu|]. split; [reflexivity|]. split.
    + intros l. destruct (accesses_updating l w' Hu) as [H1 H2].
      split; [exact H1|now rewrite H2].
    + intros e l He Hall Hl.
      rewrite (accesses_expired l w' e Hu He Hall).
      destruct l; [contradiction|reflexivity].
Qed.

End Access.

Import Scenario VimeoUrl.


Lemma refresh_takes_first_same_family_witness :
  mismatched (py "exp=1700000090~old")
    ("akamai", mkCdn (py "/1700000100-abc/playlist.m3u8") false (py "")) /\
  reload_auth_data 1700000031 fresh_data (py "exp=1700000090~old") expired_world =
    Ret tt (refresh_done (py "exp=1700000100~new")
              (refresh_started 1700000031 (py "exp=1700000090~old") expired_world)).
Proof.
  assert (H : mismatched (py "exp=1700000090~old")
                ("akamai", mkCdn (py "/1700000100-abc/playlist.m3u8") false (py ""))).
  { exists (py "1700000100-abc"). split; reflexivity. }
  split; [exact H|].
  refine (proj1 (proj1 (refresh_takes_first_same_family 1700000031
            (py "exp=1700000090~old") _ expired_world)
            [("akamai", mkCdn (py "/1700000100-abc/playlist.m3u8") false (py ""))]
            "fastly" (mkCdn (py "/redirect") true (py "/exp=1700000100~new/playlist.m3u8"))
            [] (py "exp=1700000100~new") eq_refl _ eq_refl eq_refl)).
  constructor; [exact H|constructor].
Defined.

(** The digits of a token need not be ASCII digits: [set_expiry_time] reads
    the Arabic-Indic digits of [exp=\u0661\u0667\u0660\u0660~abc] as 1700. *)
Example expiry_time_of_arabic_indic_token :
  exp_tilde_token arabic_indic_token
    [arabic_indic 1; arabic_indic 7; arabic_indic 0; arabic_indic 0] /\
  set_expiry_time (Some arabic_indic_token) young_world =
    Ret tt (upd_api (set_expiry (Some 1640)) young_world).
Proof.
  split; [|reflexivity].
  split; [reflexivity|]. split; [reflexivity|]. now exists (py "abc").
Qed.

(** C3, as stated, fails: at the very second the token expires
    ([time_now = expiry_time]), thirty seconds after the API object was
    created, the access leaves [_need_update] clear. *)
Lemma access_at_expiry_time_is_not_flagged :
  expiry_time (api young_world) = Some 1700000030 /\
  updating (api young_world) = false /\
  1700000030 - last_updated (api young_world) < _expiry_time_limit /\
  url plain_geturl (mkAccess 1700000030 1700000030 fresh_data) young_world =
    Ret old_url young_world /\
  _need_update (stream young_world) = false.
Proof. vm_compute. repeat split. Qed.

(** Before the first refresh [auth_data] is still [None]: an access that is
    throttled because the API object was created less than 60 seconds ago
    sets [_need_update], and the access after it, finding [_need_update] set
    and no refresh in progress, passes [None] to [set_expiry_time] and
    raises a [TypeError]. *)
Example throttled_before_first_refresh :
  url plain_geturl (mkAccess 1700000031 1700000031 fresh_data) young_world =
    Ret old_url (upd_stream (set_need_update true) young_world) /\
  url plain_geturl (mkAccess 1700000032 1700000032 fresh_data)
    (upd_stream (set_need_update true) young_world) =
    Raise TypeError (upd_stream (set_need_update true) young_world).
Proof. vm_compute. split; reflexivity. Qed.

Lemma no_refresh_while_updating_or_throttled_witness :
  url plain_geturl (mkAccess 1700000031 1700000031 fresh_data) young_world =
    Ret old_url (upd_stream (set_need_update true) young_world).
Proof.
  refine (proj2 (no_refresh_while_updating_or_throttled plain_geturl young_world
            (mkAccess 1700000031 1700000031 fresh_data) (or_intror _))
            1700000030 eq_refl _ eq_refl);
    vm_compute; reflexivity.
Defined.



(** C7. The loop of [reload_auth_data] does not get to the first candidate
    of the same encoding when an entry before it has a URL without a
    second path segment: of the three entries of [broken_data] the first is
    of the other encoding and is passed over, the third carries a token of
    the encoding of [auth_part], but at the second, whose path is empty,
    [path_parts[1]] raises an [IndexError].  The call ends there, not with
    the [StreamError] of a failed refresh; no token is installed and
    [updating] stays set. *)
Theorem refresh_stops_before_matching_candidate :
  broken_data = Some (mkFiles (Some
    [ ("akamai", mkCdn (py "/1700000100-abc/playlist.m3u8") false (py ""));
      ("fastly", mkCdn (py "") false (py ""));
      ("level3", mkCdn (py "/exp=1700000100~new/playlist.m3u8") false (py "")) ])) /\
  cdn_token (mkCdn (py "/1700000100-abc/playlist.m3u8") false (py ""))
    = Some (py "1700000100-abc") /\
  same_family (py "1700000100-abc") (py "exp=1700000090~old") = false /\
  cdn_token (mkCdn (py "") false (py "")) = None /\
  cdn_token (mkCdn (py "/exp=1700000100~new/playlist.m3u8") false (py ""))
    = Some (py "exp=1700000100~new") /\
  same_family (py "exp=1700000100~new") (py "exp=1700000090~old") = true /\
  reload_auth_data 1700000031 broken_data (py "exp=1700000090~old") expired_world =
    Raise IndexError
      (refresh_started 1700000031 (py "exp=1700000090~old") expired_world) /\
  auth_data (api (refresh_started 1700000031 (py "exp=1700000090~old") expired_world))
    = None /\
  updating (api (refresh_started 1700000031 (py "exp=1700000090~old") expired_world))
    = true.
Proof. vm_compute. repeat split. Qed.



Lemma failed_refresh_is_never_retried_witness :
  returns (reload_auth_data 1700000031 None (py "exp=1700000090~old") expired_world) = false /\
  updating (api (state_of
    (reload_auth_data 1700000031 None (py "exp=1700000090~old") expired_world))) = true.
Proof.
  pose proof (failed_refresh_is_never_retried plain_geturl expired_world 1700000031
                None (py "exp=1700000090~old")) as (H1 & _ & H3).
  pose proof (H1 (or_introl eq_refl)) as Hf.
  split; [exact Hf|]. exact (proj1 (H3 Hf)).
Defined.

End VimeoFacts.

(** ** More of the polling worker *)

Module PollingOrderFacts.
Import Polling PollingOrder PollingFacts.

Lemma StronglySorted_snoc (l : list Z) (x : Z) :
  StronglySorted Z.le l -> Forall (fun a => a <= x) l ->
  StronglySorted Z.le (l ++ [x]).
Proof.
  induction 1 as [|a l Hs IH Ha]; intros Hall; simpl.
  - repeat constructor.
  - inversion Hall as [|? ? Hax Hl]; subst.
    constructor; [now apply IH|].
    apply Forall_app. split; [exact Ha|]. now constructor.
Qed.

(** The state a call leaves, whether it returns or raises. *)
Lemma wait_and_reload_state (w : Worker) (c : Cycle) :
  (closed w || stop_signal c = true /\
   state_of (wait_and_reload c w) = set_closed true w) \/
  (closed w = false /\ stop_signal c = false /\
   exists warnings,
     fire_times warnings = [] /\
     state_of (wait_and_reload c w) =
       mkWorker (reload_time w) (next_anchor w c) false
                (log w ++ EvReload (next_anchor w c) :: warnings)).
Proof.
  destruct (closed w || stop_signal c) eqn:Hs.
  - left. split; [reflexivity|]. now rewrite wait_and_reload_stopped.
  - right. apply orb_false_elim in Hs. destruct Hs as [Hc Hs].
    split; [exact Hc|]. split; [exact Hs|].
    rewrite (wait_and_reload_fired w c Hc Hs). cbv zeta.
    unfold add_event, set_reload_last.
    destruct (reload_result c) as [[msg| | |name]|]; cbn [state_of log reload_time
      reload_last closed]; rewrite Hc.
    + exists [EvWarning ("Reloading failed: " ++ msg)]. split; [reflexivity|].
      now rewrite <- app_assoc.
    + exists []. split; reflexivity.
    + exists []. split; reflexivity.
    + exists []. split; reflexivity.
    + exists []. split; reflexivity.
Qed.

Lemma run_cons_state (c : Cycle) (cs : list Cycle) (w : Worker) :
  state_of (run (c :: cs) w) =
    match wait_and_reload c w with
    | Ret _ w1 => state_of (run cs w1)
    | Raise _ w1 => w1
    end.
Proof.
  cbn [run]. unfold bind. destruct (wait_and_reload c w); reflexivity.
Qed.



Lemma anchors_in_order_step (w : Worker) (c : Cycle) :
  anchors_in_order w ->
  reload_last w <= time_completed c <= time_after c ->
  anchors_in_order (state_of (wait_and_reload c w)) /\
  reload_last w <= reload_last (state_of (wait_and_reload c w)).
Proof.
  intros [Hsorted Hmax] Hclock.
  destruct (wait_and_reload_state w c) as [[_ ->]|(_ & _ & ws & Hws & ->)].
  - split; [split; assumption|]. simpl. lia.
  - assert (Hna : reload_last w <= next_anchor w c).
    { unfold next_anchor, time_wait_of.
      destruct (0 <? _) eqn:E; [apply Z.ltb_lt in E|]; lia. }
    assert (Hle : Forall (fun a => a <= next_anchor w c) (fire_times (log w))).
    { eapply Forall_impl; [exact Hmax|]. simpl. intros a Ha. lia. }
    unfold anchors_in_order. simpl.
    rewrite fire_times_app. simpl. rewrite Hws.
    split; [split|exact Hna].
    + now apply StronglySorted_snoc.
    + apply Forall_app. split; [exact Hle|]. constructor; [lia|constructor].
Qed.

(** X2. As long as the clock keeps up with the worker (no call reads a time
    before the anchor, and the time read after a sleep is not before the
    time read at its start), the anchor never moves backwards and the fire
    times the reloads are accounted to are in ascending order, whatever the
    outcome of the reloads and whenever the stop signal comes. *)
Theorem anchor_only_moves_forward (w : Worker) (cs : list Cycle) :
  anchors_in_order w -> clock_keeps_up w cs ->
  anchors_in_order (state_of (run cs w)) /\
  reload_last w <= reload_last (state_of (run cs w)).
Proof.
  revert w. induction cs as [|c cs IH]; intros w Hinv Hclock.
  - simpl. split; [exact Hinv|lia].
  - destruct Hclock as [Hc Hrest].
    destruct (anchors_in_order_step w c Hinv Hc) as [Hinv1 Hle1].
    rewrite run_cons_state.
    destruct (wait_and_reload c w) as [[] w1|e w1]; simpl in *.
    + destruct (IH w1 Hinv1 Hrest) as [Hinv2 Hle2]. split; [exact Hinv2|lia].
    + split; [exact Hinv1|exact Hle1].
Qed.

Lemma anchor_only_moves_forward_witness :
  anchors_in_order (state_of (run three_cycles (init 0))) /\
  0 <= reload_last (state_of (run three_cycles (init 0))).
Proof.
  apply (anchor_only_moves_forward (init 0) three_cycles).
  - split; constructor.
  - simpl. repeat split; lia.
Defined.



Lemma wait_and_reload_log (w : Worker) (c : Cycle) :
  exists new,
    log (state_of (wait_and_reload c w)) = (log w ++ new)%list /\
    (length (fire_times new) <= 1)%nat.
Proof.
  destruct (wait_and_reload_state w c) as [[_ ->]|(_ & _ & ws & Hws & ->)].
  - exists []. simpl. rewrite app_nil_r. split; [reflexivity|lia].
  - exists (EvReload (next_anchor w c) :: ws). simpl. rewrite Hws.
    split; [reflexivity|simpl; lia].
Qed.

(** X4. A sequence of calls of [wait_and_reload] only ever appends to the
    log, and it calls [reload()] at most once per call. *)
Theorem at_most_one_reload_per_cycle (w : Worker) (cs : list Cycle) :
  exists new,
    log (state_of (run cs w)) = (log w ++ new)%list /\
    (length (fire_times new) <= length cs)%nat.
Proof.
  revert w. induction cs as [|c cs IH]; intros w.
  - exists []. simpl. rewrite app_nil_r. split; [reflexivity|lia].
  - destruct (wait_and_reload_log w c) as (new1 & Hlog1 & Hlen1).
    rewrite run_cons_state.
    destruct (wait_and_reload c w) as [[] w1|e w1]; simpl in Hlog1.
    + destruct (IH w1) as (new2 & Hlog2 & Hlen2).
      exists (new1 ++ new2)%list. rewrite Hlog2, Hlog1, <- app_assoc.
      split; [reflexivity|]. rewrite fire_times_app, length_app. simpl. lia.
    + exists new1. split; [exact Hlog1|]. simpl. lia.
Qed.

End PollingOrderFacts.

(** ** More of the Vimeo stream *)

Module VimeoUrlFacts.
Import PyStr PyStrFacts Vimeo VimeoUrl VimeoFacts Scenario.
Local Open Scope list_scope.

(** X5. No token matches both expiry patterns, so the order in which
    [set_expiry_time] tries them does not matter: trying [_expiry_re2]
    first gives the same expiry time. *)
Theorem expiry_patterns_never_both_match (token : str) :
  matches (_expiry_re1 token) && matches (_expiry_re2 token) = false /\
  token_expiry token =
    match _expiry_re2 token with
    | Some d => Some (int d - _expiry_time_limit)
    | None =>
        match _expiry_re1 token with
        | Some d => Some (int d - _expiry_time_limit)
        | None => None
        end
    end.
Proof.
  pose proof (expiry_re_exclusive token) as H. unfold token_expiry.
  destruct (_expiry_re1 token) as [d1|]; simpl in *.
  - rewrite (H eq_refl). auto.
  - destruct (_expiry_re2 token); auto.
Qed.

(** The constructor, when it returns. *)
Lemma VimeoHLSStream_init_Ret (a : VimeoAPI) (u : str) (p : ParseResult)
    (w0 : World) :
  VimeoHLSStream_init a u p = Ret tt w0 ->
  exists token e,
    split "/" (path p) !! 1%nat = Some token /\
    token_expiry token = Some e /\
    w0 = mkWorld (set_expiry (Some e) a)
                 (mkStream u p (split "/" (path p)) false) [].
Proof.
  unfold VimeoHLSStream_init, bind, index.
  destruct (split "/" (path p) !! 1%nat) as [token|] eqn:Ht; [|discriminate].
  unfold ret at 1. rewrite set_expiry_time_token.
  destruct (token_expiry token) as [e|] eqn:He; [|discriminate].
  intros H. inversion H. exists token, e. auto.
Qed.



(** X7. [reload_auth_data] called with a token that is of neither encoding
    never succeeds, whatever the source answers. *)
Theorem refresh_for_unknown_encoding_fails (now : Z) (data : option Files)
    (auth_part : str) (w : World) :
  family_of auth_part = None ->
  returns (reload_auth_data now data auth_part w) = false.
Proof.
  intros Hf.
  destruct (reload_auth_data_cases now data auth_part w)
    as [(t & Ht & _)|(ex & ->)]; [|reflexivity].
  unfold same_family in Ht. rewrite Hf in Ht.
  destruct (family_of t) as [[]|]; discriminate.
Qed.

Lemma refresh_for_unknown_encoding_fails_witness :
  returns (reload_auth_data 1700000031 fresh_data (py "abc123") expired_world) = false.
Proof.
  apply (refresh_for_unknown_encoding_fails 1700000031 fresh_data (py "abc123")
           expired_world).
  reflexivity.
Defined.

(** X8. When the loop of [reload_auth_data] comes to an entry whose URL path
    has no second segment before it has found a token, the call ends with
    an [IndexError] (not a [StreamError]), with [updating] left set; the
    entries after it are not looked at. *)
Theorem refresh_entry_without_token_segment (now : Z) (auth_part : str)
    (pre post : list (string * Cdn)) (name : string) (c : Cdn) (w : World) :
  Forall (mismatched auth_part) pre ->
  cdn_token c = None ->
  reload_auth_data now (Some (mkFiles (Some (pre ++ (name, c) :: post)%list)))
    auth_part w =
    Raise IndexError (refresh_started now auth_part w) /\
  updating (api (refresh_started now auth_part w)) = true.
Proof.
  intros Hpre Hc. split; [|reflexivity].
  rewrite reload_auth_data_scan, (scan_cdns_skip _ _ _ _ Hpre), scan_cdns_cons.
  now rewrite Hc.
Qed.

Lemma refresh_entry_without_token_segment_witness :
  reload_auth_data 1700000031 broken_data (py "exp=1700000090~old") expired_world =
    Raise IndexError
      (refresh_started 1700000031 (py "exp=1700000090~old") expired_world).
Proof.
  refine (proj1 (refresh_entry_without_token_segment 1700000031
            (py "exp=1700000090~old")
            [("akamai", mkCdn (py "/1700000100-abc/playlist.m3u8") false (py ""))]
            [("level3", mkCdn (py "/exp=1700000100~new/playlist.m3u8") false (py ""))]
            "fastly" (mkCdn (py "") false (py "")) expired_world _ eq_refl)).
  constructor; [|constructor].
  exists (py "1700000100-abc"). split; reflexivity.
Defined.

End VimeoUrlFacts.

(** ** More of the [url] property *)

Module VimeoAccessFacts.
Import PyStr PyStrFacts Vimeo VimeoUrl VimeoFacts VimeoUrlFacts Scenario.
Local Open Scope list_scope.

Section Access.

Variable geturl : ParseResult -> str.

Local Abbreviation apply_update := (apply_update geturl).
Local Abbreviation url := (url geturl).
Local Abbreviation accesses := (accesses geturl).
Local Abbreviation swapped := (swapped geturl).
Local Abbreviation url_built := (url_built geturl).

Lemma url_state (a : Access) (w : World) :
  state_of (url a w) =
    match apply_update w with
    | Ret _ w1 => state_of (check_expiry a w1)
    | Raise _ w1 => w1
    end.
Proof.
  rewrite url_unfold. destruct (apply_update w) as [[] w1|ex w1]; [|reflexivity].
  destruct (check_expiry a w1) as [[] w2|ex w2]; reflexivity.
Qed.

Lemma accesses_state (a : Access) (l : list Access) (w : World) :
  state_of (accesses (a :: l) w) =
    match url a w with
    | Ret _ w1 => state_of (accesses l w1)
    | Raise _ w1 => w1
    end.
Proof.
  rewrite accesses_cons. destruct (url a w) as [u w1|ex w1]; [|reflexivity].
  destruct (Vimeo.accesses geturl l w1); reflexivity.
Qed.

(** A property of the state that every access keeps is kept by every
    sequence of accesses. *)
Lemma accesses_invariant (P : World -> Prop) :
  (forall a w, P w -> P (state_of (url a w))) ->
  forall l w, P w -> P (state_of (accesses l w)).
Proof.
  intros Hstep l. induction l as [|a l IH]; intros w Hw; [exact Hw|].
  rewrite accesses_state. pose proof (Hstep a w Hw) as H1.
  destruct (url a w) as [u w1|ex w1]; simpl in H1; [now apply IH|exact H1].
Qed.

(** X9. An access made while the token has not expired
    ([time_now <= expiry_time]) and no refreshed token waits to be swapped
    in changes nothing at all: it returns the URL, and the stream, the API
    object and the log are as they were. *)
Theorem unexpired_access_changes_nothing (w : World) (a : Access) (e : Z) :
  expiry_time (api w) = Some e -> time_now a <= e ->
  _need_update (stream w) && negb (updating (api w)) = false ->
  url a w = Ret (_url (stream w)) w.
Proof.
  intros He Hle Hidle.
  rewrite url_unfold, (apply_update_idle geturl w Hidle).
  now rewrite (check_expiry_fresh a w e He Hle).
Qed.

Lemma url_pending_without_token (a : Access) (w : World) :
  _need_update (stream w) = true -> updating (api w) = false ->
  auth_data (api w) = None ->
  url a w = Raise TypeError w.
Proof.
  intros Hn Hu Ha. rewrite url_unfold.
  unfold Vimeo.apply_update, bind, get. rewrite Hn, Hu, Ha. reflexivity.
Qed.

(** X10. A stream on a newly created API object, whose token is within 60
    seconds of its expiry: an access made after the expiry time but less
    than 60 seconds after the API object was created only sets
    [_need_update]; the access after it finds [_need_update] set, no
    refresh in progress and [auth_data] still [None], and raises a
    [TypeError]. *)
Theorem access_after_early_expiry_raises (created : Z) (u : str)
    (p : ParseResult) (w0 : World) (e : Z) (a1 a2 : Access) :
  VimeoHLSStream_init (VimeoAPI_init created) u p = Ret tt w0 ->
  expiry_time (api w0) = Some e ->
  e < time_now a1 -> time_now a1 - created < _expiry_time_limit ->
  url a1 w0 = Ret u (upd_stream (set_need_update true) w0) /\
  url a2 (upd_stream (set_need_update true) w0) =
    Raise TypeError (upd_stream (set_need_update true) w0) /\
  accesses [a1; a2] w0 = Raise TypeError (upd_stream (set_need_update true) w0).
Proof.
  intros Hinit He Hlt Hthr.
  destruct (VimeoHLSStream_init_Ret _ _ _ _ Hinit) as (token & e' & _ & _ & ->).
  simpl in He. inversion He; subst e'. clear He Hinit.
  set (W := mkWorld (set_expiry (Some e) (VimeoAPI_init created))
              (mkStream u p (split "/" (path p)) false) []).
  assert (H1 : url a1 W = Ret u (upd_stream (set_need_update true) W))
    by exact (url_throttled geturl a1 W e eq_refl Hlt (or_intror Hthr) eq_refl).
  assert (H2 : url a2 (upd_stream (set_need_update true) W) =
               Raise TypeError (upd_stream (set_need_update true) W))
    by (apply url_pending_without_token; reflexivity).
  split; [exact H1|]. split; [exact H2|].
  rewrite accesses_cons, H1, accesses_cons, H2. reflexivity.
Qed.

Lemma apply_update_consistent (w : World) :
  consistent w -> consistent (state_of (apply_update w)).
Proof.
  intros Hc.
  destruct (apply_update_cases geturl w)
    as [[_ ->]|(_ & _ & [(t & e & _ & He & Hl & ->)|[[ex ->]|(t & e & _ & _ & Hl & _)]])].
  - exact Hc.
  - exists t, e. simpl. split; [now apply list_lookup_insert_eq|auto].
  - exact Hc.
  - destruct Hc as (tok & e0 & Hp & _). apply lookup_lt_Some in Hp. lia.
Qed.

Lemma url_consistent (a : Access) (w : World) :
  consistent w -> consistent (state_of (url a w)).
Proof.
  intros Hc. rewrite url_state.
  pose proof (apply_update_consistent w Hc) as H1.
  destruct (apply_update w) as [[] w1|ex w1]; simpl in H1; [|exact H1].
  destruct (check_expiry_keeps a w1) as (_ & _ & Hp & He).
  destruct H1 as (tok & e & H1 & H2 & H3).
  exists tok, e. rewrite Hp, He. auto.
Qed.

(** X11. Once a stream has been constructed, and as long as it has its API
    object to itself, the expiry time held by the API object is always the
    one of the token in the stream's URL path: every sequence of accesses
    keeps this, whether they return or raise and whether refreshes succeed
    or fail. *)
Theorem expiry_time_belongs_to_url_token (a0 : VimeoAPI) (u : str)
    (p : ParseResult) (w0 : World) (l : list Access) :
  VimeoHLSStream_init a0 u p = Ret tt w0 ->
  consistent w0 /\ consistent (state_of (accesses l w0)).
Proof.
  intros Hinit.
  destruct (VimeoHLSStream_init_Ret _ _ _ _ Hinit) as (token & e & Ht & He & ->).
  assert (Hc : consistent (mkWorld (set_expiry (Some e) a0)
                             (mkStream u p (split "/" (path p)) false) []))
    by (exists token, e; auto).
  split; [exact Hc|].
  apply (accesses_invariant consistent); [apply url_consistent|exact Hc].
Qed.

End Access.

Lemma unexpired_access_changes_nothing_witness :
  url plain_geturl (mkAccess 1700000010 1700000010 fresh_data) young_world =
    Ret old_url young_world.
Proof.
  apply (unexpired_access_changes_nothing plain_geturl young_world
           (mkAccess 1700000010 1700000010 fresh_data) 1700000030);
    vm_compute; first [reflexivity | discriminate].
Defined.

Lemma access_after_early_expiry_raises_witness :
  accesses plain_geturl
    [mkAccess 1700000031 1700000031 fresh_data;
     mkAccess 1700000032 1700000032 fresh_data] young_world =
    Raise TypeError (upd_stream (set_need_update true) young_world).
Proof.
  refine (proj2 (proj2 (access_after_early_expiry_raises plain_geturl 1700000000
            old_url old_parsed young_world 1700000030
            (mkAccess 1700000031 1700000031 fresh_data)
            (mkAccess 1700000032 1700000032 fresh_data) _ _ _ _)));
    vm_compute; reflexivity.
Defined.

Lemma expiry_time_belongs_to_url_token_witness :
  consistent (state_of (accesses plain_geturl [first_access; soon_access] expired_world)).
Proof.
  refine (proj2 (expiry_time_belongs_to_url_token plain_geturl
            (VimeoAPI_init 1699990000) old_url old_parsed expired_world
            [first_access; soon_access] _)).
  vm_compute. reflexivity.
Defined.

End VimeoAccessFacts.

(** ** What the accesses keep, and how often they refresh *)

Module VimeoRefreshFacts.
Import PyStr PyStrFacts Vimeo VimeoUrl VimeoFacts VimeoUrlFacts VimeoAccessFacts Scenario.
Local Open Scope list_scope.

Lemma replace_path_same (p : ParseResult) : replace_path p (path p) = p.
Proof. destruct p; reflexivity. Qed.

Section Access.

Variable geturl : ParseResult -> str.

Local Abbreviation apply_update := (apply_update geturl).
Local Abbreviation url := (url geturl).
Local Abbreviation accesses := (accesses geturl).
Local Abbreviation swapped := (swapped geturl).
Local Abbreviation url_built := (url_built geturl).

Lemma url_frame (a : Access) (w : World) :
  _parsed_url (stream (state_of (url a w))) = _parsed_url (stream w) /\
  length (_path_parts (stream (state_of (url a w)))) =
    length (_path_parts (stream w)) /\
  forall i, i <> 1%nat ->
    _path_parts (stream (state_of (url a w))) !! i = _path_parts (stream w) !! i.
Proof.
  rewrite url_state.
  assert (H1 : _parsed_url (stream (state_of (apply_update w))) = _parsed_url (stream w) /\
               length (_path_parts (stream (state_of (apply_update w)))) =
                 length (_path_parts (stream w)) /\
               forall i, i <> 1%nat ->
                 _path_parts (stream (state_of (apply_update w))) !! i =
                   _path_parts (stream w) !! i).
  { destruct (apply_update_cases geturl w)
      as [[_ ->]|(_ & _ & [(t & e & _ & _ & _ & ->)|[[ex ->]|(t & e & _ & _ & _ & ->)]])];
      simpl; auto.
    split; [reflexivity|]. split; [apply length_insert|].
    intros i Hi. apply list_lookup_insert_ne. congruence. }
  destruct (apply_update w) as [[] w1|ex w1]; simpl in H1; [|exact H1].
  destruct (check_expiry_keeps a w1) as (_ & Hp & Hparts & _).
  rewrite Hp, Hparts. exact H1.
Qed.

(** X12. However many accesses are made, [_parsed_url] stays the parse of
    the original URL, the path keeps its number of segments, and no segment
    other than the second one (the token, index 1) is ever changed. *)
Theorem only_the_token_segment_changes (w : World) (l : list Access) :
  _parsed_url (stream (state_of (accesses l w))) = _parsed_url (stream w) /\
  length (_path_parts (stream (state_of (accesses l w)))) =
    length (_path_parts (stream w)) /\
  forall i, i <> 1%nat ->
    _path_parts (stream (state_of (accesses l w))) !! i =
      _path_parts (stream w) !! i.
Proof.
  apply (accesses_invariant geturl
    (fun w' => _parsed_url (stream w') = _parsed_url (stream w) /\
               length (_path_parts (stream w')) = length (_path_parts (stream w)) /\
               forall i, i <> 1%nat ->
                 _path_parts (stream w') !! i = _path_parts (stream w) !! i));
    [|auto].
  intros a w' (H1 & H2 & H3).
  destruct (url_frame a w') as (F1 & F2 & F3).
  split; [congruence|]. split; [congruence|].
  intros i Hi. rewrite (F3 i Hi). now apply H3.
Qed.

Lemma url_keeps_built (a : Access) (w : World) :
  url_built w -> url_built (state_of (url a w)).
Proof.
  intros Hb. rewrite url_state.
  assert (H1 : url_built (state_of (apply_update w))).
  { destruct (apply_update_cases geturl w)
      as [[_ ->]|(_ & _ & [(t & e & _ & _ & _ & ->)|[[ex ->]|(t & e & _ & _ & _ & ->)]])];
      try exact Hb.
    reflexivity. }
  destruct (apply_update w) as [[] w1|ex w1]; simpl in H1; [|exact H1].
  destruct (check_expiry_keeps a w1) as (Hu & Hp & Hparts & _).
  unfold VimeoUrl.url_built. rewrite Hu, Hp, Hparts. exact H1.
Qed.

(** X13. If [geturl()] gives back the URL the stream was constructed from,
    then after every sequence of accesses the stream's URL is exactly what
    [geturl()] makes of the original parse result with the current path
    segments joined by ["/"]: the URL an access returns is never a mix of
    an old and a new state. *)
Theorem url_is_built_from_the_path_parts (a0 : VimeoAPI) (u : str)
    (p : ParseResult) (w0 : World) (l : list Access) :
  VimeoHLSStream_init a0 u p = Ret tt w0 ->
  geturl p = u ->
  url_built w0 /\ url_built (state_of (accesses l w0)).
Proof.
  intros Hinit Hu.
  destruct (VimeoHLSStream_init_Ret _ _ _ _ Hinit) as (token & e & _ & _ & ->).
  assert (Hb : url_built (mkWorld (set_expiry (Some e) a0)
                            (mkStream u p (split "/" (path p)) false) [])).
  { unfold VimeoUrl.url_built. simpl.
    rewrite (py_join_split "/" (path p)
               : join (py "/") (split "/" (path p)) = path p),
      replace_path_same.
    now symmetry. }
  split; [exact Hb|].
  apply (accesses_invariant geturl url_built); [apply url_keeps_built|exact Hb].
Qed.

Lemma check_expiry_trace (a : Access) (w : World) :
  refreshes (trace (state_of (check_expiry a w))) = refreshes (trace w) \/
  exists part,
    _path_parts (stream w) !! 1%nat = Some part /\
    refreshes (trace (state_of (check_expiry a w))) =
      (refreshes (trace w) ++ [part])%list.
Proof.
  destruct (expiry_time (api w)) as [e|] eqn:He;
    [|left; unfold check_expiry, bind, get; now rewrite He].
  destruct (Z_lt_le_dec e (time_now a)) as [Hlt|Hle];
    [|left; now rewrite (check_expiry_fresh a w e He Hle)].
  destruct (updating (api w)) eqn:Hu.
  { left. now rewrite (check_expiry_throttled a w e He Hlt (or_introl Hu)). }
  destruct (Z_lt_le_dec (time_now a - last_updated (api w)) _expiry_time_limit)
    as [Hthr|Hthr].
  { left. now rewrite (check_expiry_throttled a w e He Hlt (or_intror Hthr)). }
  rewrite (check_expiry_refresh a w e He Hlt Hu Hthr).
  destruct (_path_parts (stream w) !! 1%nat) as [part|].
  - right. exists part. split; [reflexivity|].
    destruct (reload_auth_data_cases (refresh_time a) (refresh_data a) part
                (emit (EvDebug "Reloading Vimeo auth data") w))
      as [(t & _ & ->)|(ex & ->)]; simpl;
      rewrite !refreshes_app; simpl; now rewrite app_nil_r.
  - left. simpl. rewrite refreshes_app. simpl. now rewrite app_nil_r.
Qed.

(** X14. One access calls [reload_auth_data] at most once, and when it does,
    the argument is the token segment the stream's URL has at the end of
    the access (the refresh itself does not touch the URL). *)
Theorem at_most_one_refresh_per_access (a : Access) (w : World) :
  refreshes (trace (state_of (url a w))) = refreshes (trace w) \/
  exists part,
    _path_parts (stream (state_of (url a w))) !! 1%nat = Some part /\
    refreshes (trace (state_of (url a w))) = (refreshes (trace w) ++ [part])%list.
Proof.
  rewrite url_state.
  destruct (apply_update_keeps geturl w) as (_ & _ & _ & Hr).
  destruct (apply_update w) as [[] w1|ex w1]; simpl in Hr; [|now left].
  destruct (check_expiry_keeps a w1) as (_ & _ & Hparts & _).
  destruct (check_expiry_trace a w1) as [H|(part & Hp & H)].
  - left. congruence.
  - right. exists part. rewrite Hparts, H, Hr. auto.
Qed.

Lemma url_throttled_state (a : Access) (w : World) :
  updating (api w) = true \/ time_now a - last_updated (api w) < _expiry_time_limit ->
  last_updated (api (state_of (url a w))) = last_updated (api w).
Proof.
  intros Hor. rewrite url_state.
  destruct (apply_update_keeps geturl w) as (Hu & Hl & _ & _).
  destruct (apply_update w) as [[] w1|ex w1]; simpl in *; [|exact Hl].
  rewrite <- Hu, <- Hl in *. clear Hu Hl.
  destruct (expiry_time (api w1)) as [e|] eqn:He.
  - destruct (Z_lt_le_dec e (time_now a)) as [Hlt|Hle].
    + now rewrite (check_expiry_throttled a w1 e He Hlt Hor).
    + now rewrite (check_expiry_fresh a w1 e He Hle).
  - unfold check_expiry, bind, get. now rewrite He.
Qed.

(** X15. No refresh is started less than 60 seconds (by the clock readings
    of the accesses) after the last one was started, or after the API
    object was created: a sequence of accesses that all fall within that
    time calls [reload_auth_data] not once, and leaves [last_updated] as it
    was. *)
Theorem no_refresh_within_the_time_limit (l : list Access) (w : World) :
  Forall (fun a => time_now a - last_updated (api w) < _expiry_time_limit) l ->
  refreshes (trace (state_of (accesses l w))) = refreshes (trace w) /\
  last_updated (api (state_of (accesses l w))) = last_updated (api w).
Proof.
  intros Hall. revert w Hall. induction l as [|a l IH]; intros w Hall; [auto|].
  inversion Hall as [|? ? Ha Hl]; subst.
  pose proof (url_no_refresh geturl a w (or_intror Ha)) as Hr.
  pose proof (url_throttled_state a w (or_intror Ha)) as Hu.
  rewrite accesses_state.
  destruct (url a w) as [u w1|ex w1]; simpl in Hr, Hu; [|auto].
  destruct (IH w1) as [Hr2 Hu2]; [now rewrite Hu|].
  split; congruence.
Qed.

End Access.

Lemma url_is_built_from_the_path_parts_witness :
  url_built plain_geturl
    (state_of (accesses plain_geturl [first_access; soon_access] expired_world)).
Proof.
  refine (proj2 (url_is_built_from_the_path_parts plain_geturl
            (VimeoAPI_init 1699990000) old_url old_parsed expired_world
            [first_access; soon_access] _ _));
    vm_compute; reflexivity.
Defined.

Lemma no_refresh_within_the_time_limit_witness :
  refreshes (trace (state_of
    (accesses plain_geturl [soon_access; soon_access] after_refresh))) =
    [(py "exp=1700000090~old")].
Proof.
  refine (proj1 (no_refresh_within_the_time_limit plain_geturl
            [soon_access; soon_access] after_refresh _)).
  repeat constructor.
Defined.

End VimeoRefreshFacts.

(** ** More of [str] *)

Module TextFacts.
Import Str StrFacts Text.

Lemma startswith_app (p s : string) : startswith (p ++ s) p = true.
Proof. unfold startswith. now rewrite strip_prefix_app. Qed.

Lemma contains_head (sub s : string) :
  startswith s sub = true -> contains sub s = true.
Proof. intros H. destruct s; cbn [contains]; now rewrite H. Qed.

Lemma contains_intro (sub a b : string) : contains sub (a ++ sub ++ b) = true.
Proof.
  induction a as [|c a IH].
  - apply contains_head. exact (startswith_app sub b).
  - cbn [append contains]. rewrite IH. apply orb_true_r.
Qed.

Lemma contains_elim (sub s : string) :
  contains sub s = true -> exists a b, s = a ++ sub ++ b.
Proof.
  induction s as [|c s IH]; cbn [contains]; intros H.
  - rewrite orb_false_r in H. unfold startswith in H.
    destruct (strip_prefix sub "") as [r|] eqn:E; [|discriminate].
    apply strip_prefix_elim in E. now exists "", r.
  - apply orb_true_iff in H. destruct H as [H|H].
    + unfold startswith in H.
      destruct (strip_prefix sub (String c s)) as [r|] eqn:E; [|discriminate].
      apply strip_prefix_elim in E. now exists "", r.
    + destruct (IH H) as (a & b & ->). now exists (String c a), b.
Qed.

(** A string with the separator in it splits into at least two parts. *)
Lemma contains_sep_split (sep : ascii) (s : string) :
  contains (String sep EmptyString) s = true ->
  (1 < length (split sep s))%nat.
Proof.
  induction s as [|c s IH]; cbn [contains].
  - discriminate.
  - unfold startswith. cbn [strip_prefix]. rewrite Ascii.eqb_sym.
    pose proof (split_not_nil sep s) as Hne. simpl.
    destruct (Ascii.eqb c sep) eqn:E.
    + intros _. destruct (split sep s); [contradiction|simpl; lia].
    + simpl. intros H. specialize (IH H).
      destruct (split sep s) as [|p ps]; [contradiction|]. simpl in *. lia.
Qed.

Lemma contains_sep_false (sep : ascii) (s : string) :
  contains (String sep EmptyString) s = false -> split sep s = [s].
Proof.
  induction s as [|c s IH]; [reflexivity|].
  cbn [contains]. unfold startswith. cbn [strip_prefix].
  rewrite Ascii.eqb_sym.
  destruct (Ascii.eqb c sep) eqn:E; [discriminate|]. simpl.
  intros H. rewrite E, (IH H). reflexivity.
Qed.

(** The first part of a split ends at the first separator. *)
Lemma split_app_sep (sep : ascii) (a b : string) :
  contains (String sep EmptyString) a = false ->
  split sep (a ++ String sep b) = a :: split sep b.
Proof.
  induction a as [|c a IH]; intros H.
  - simpl. now rewrite Ascii.eqb_refl.
  - revert H. cbn [contains]. unfold startswith. cbn [strip_prefix].
    rewrite Ascii.eqb_sym.
    destruct (Ascii.eqb c sep) eqn:E; [discriminate|]. simpl.
    intros H. rewrite E, (IH H). reflexivity.
Qed.

(** [replace] leaves a string without an occurrence of [old] alone. *)
Lemma replace_steps_absent (n : nat) (old new s : string) :
  contains old s = false -> replace_steps n old new s = s.
Proof.
  revert s. induction n as [|n IH]; intros s H; [reflexivity|].
  cbn [replace_steps].
  destruct s as [|c s]; cbn [contains] in H; apply orb_false_iff in H;
    destruct H as [H1 H2]; unfold startswith in H1.
  - destruct (strip_prefix old ""); [discriminate|reflexivity].
  - destruct (strip_prefix old (String c s)); [discriminate|].
    now rewrite (IH s H2).
Qed.

Example replace_master_json :
  replace "master.json" "master.mpd"
    "https://cdn.example/v/master.json?base64_init=1" =
    "https://cdn.example/v/master.mpd?base64_init=1".
Proof. reflexivity. Qed.

Example replace_every_occurrence :
  replace "ab" "x" "abcabab" = "xcxx".
Proof. reflexivity. Qed.

Example endswith_examples :
  endswith "/v/master.json" "master.json" = true /\
  endswith "/v/master.json" "dash.mpd" = false /\
  endswith "" "" = true.
Proof. repeat split. Qed.

Lemma dict_get_set_same {V : Type} (k : string) (v : V) (d : list (string * V)) :
  dict_get k (dict_set k v d) = Some v.
Proof.
  induction d as [|[k' v'] d IH]; simpl.
  - now rewrite String.eqb_refl.
  - destruct (String.eqb k' k) eqn:E; simpl; now rewrite E.
Qed.

Lemma dict_get_set_other {V : Type} (k k0 : string) (v : V) (d : list (string * V)) :
  k <> k0 -> dict_get k0 (dict_set k v d) = dict_get k0 d.
Proof.
  intros Hne. induction d as [|[k' v'] d IH]; simpl.
  - destruct (String.eqb k k0) eqn:E; [apply String.eqb_eq in E; contradiction|reflexivity].
  - destruct (String.eqb k' k) eqn:E; simpl.
    + apply String.eqb_eq in E. subst k'.
      destruct (String.eqb k k0) eqn:E0; [apply String.eqb_eq in E0; contradiction|reflexivity].
    + destruct (String.eqb k' k0); [reflexivity|exact IH].
Qed.

Lemma dict_set_keys {V : Type} (k : string) (v : V) (d : list (string * V)) :
  NoDup (map fst d) ->
  NoDup (map fst (dict_set k v d)) /\
  forall k0, elem_of k0 (map fst (dict_set k v d)) <-> k0 = k \/ elem_of k0 (map fst d).
Proof.
  induction d as [|[k' v'] d IH]; simpl; intros Hnd.
  - split.
    + apply NoDup_cons. split; [intros H; now apply elem_of_nil in H|constructor].
    + intros k0. rewrite elem_of_cons. tauto.
  - apply NoDup_cons in Hnd. destruct Hnd as [Hnot Hnd'].
    destruct (String.eqb k' k) eqn:E; simpl.
    + apply String.eqb_eq in E. subst k'. split.
      * apply NoDup_cons. auto.
      * intros k0. rewrite elem_of_cons. tauto.
    + destruct (IH Hnd') as [IH1 IH2]. split.
      * apply NoDup_cons. split; [|exact IH1]. intros Hin. apply IH2 in Hin.
        destruct Hin as [Hin|Hin]; [|contradiction].
        subst k'. rewrite String.eqb_refl in E. discriminate.
      * intros k0. rewrite !elem_of_cons, IH2. tauto.
Qed.

End TextFacts.

(** ** The Vimeo plugin: [get_data] and [_get_streams] *)

Module VimeoStreamsFacts.
Import Str StrFacts Text TextFacts VimeoStreams.

(** X16. [get_data] takes any URL that has [player.vimeo.com] somewhere in it
    (in the host, but just as well in the path or the query) for a player
    page and reads the configuration from that page with one request.  For
    any other URL it asks the page for its configuration URL and makes a
    second request to it; when the page names none, it makes no second
    request and answers [None]. *)
Theorem get_data_requests (site : Site) (reqs : list string) :
  (forall a b,
     get_data (a ++ "player.vimeo.com" ++ b) site reqs =
       Ret (player_data site)
           (reqs ++ [(a ++ "player.vimeo.com" ++ b)%string])%list) /\
  (forall url,
     contains "player.vimeo.com" url = false ->
     get_data url site reqs =
       match api_url site with
       | Some config_url =>
           if non_empty config_url
           then Ret (Some (config_data site config_url))
                    (reqs ++ [url; config_url])%list
           else Ret None (reqs ++ [url])%list
       | None => Ret None (reqs ++ [url])%list
       end).
Proof.
  split.
  - intros a b. unfold get_data.
    rewrite (contains_intro "player.vimeo.com" a b). reflexivity.
  - intros url H. unfold get_data. rewrite H.
    unfold bind, modify, ret. destruct (api_url site) as [config_url|]; simpl.
    + destruct (non_empty config_url); [|reflexivity].
      now rewrite <- app_assoc.
    + reflexivity.
Qed.

Lemma get_data_requests_witness :
  get_data "https://vimeo.com/123456"
    (mkSite None (Some "https://player.vimeo.com/video/123456/config")
       (fun _ => full_video)) [] =
    Ret (Some full_video)
      ["https://vimeo.com/123456"; "https://player.vimeo.com/video/123456/config"].
Proof.
  exact (proj2 (get_data_requests
           (mkSite None (Some "https://player.vimeo.com/video/123456/config")
              (fun _ => full_video)) [])
           "https://vimeo.com/123456" eq_refl).
Defined.

Section Streams.

Variable parse_variant_playlist : string -> list (string * Stream).
Variable parse_manifest : string -> list (string * Stream).
Variable live_manifest_url : string -> string.
Variable url_path : string -> string.

Local Abbreviation for_cdns :=
  (for_cdns parse_variant_playlist parse_manifest live_manifest_url url_path).
Local Abbreviation for_stream_types :=
  (for_stream_types parse_variant_playlist parse_manifest live_manifest_url url_path).
Local Abbreviation _get_streams :=
  (_get_streams parse_variant_playlist parse_manifest live_manifest_url url_path).
Local Abbreviation streams_of :=
  (streams_of parse_variant_playlist parse_manifest live_manifest_url url_path).
Local Abbreviation unsupported := (unsupported live_manifest_url url_path).

Lemma for_cdns_present (ty : stream_type) (cdns : list (string * option string))
    (acc : Acc) :
  forallb (fun entry => truthy (snd entry)) cdns = true ->
  for_cdns ty cdns acc =
    Next (mkAcc (streams acc ++ streams_of ty (Some cdns))
                (errors acc ++ unsupported ty (Some cdns)))%list.
Proof.
  revert acc. induction cdns as [|[name [url|]] rest IH]; intros acc H.
  - simpl. rewrite !app_nil_r. now destruct acc.
  - simpl in H. apply andb_true_iff in H. destruct H as [Hu Hrest].
    cbn [VimeoStreams.for_cdns truthy]. rewrite Hu.
    destruct ty.
    + rewrite (IH _ Hrest). simpl. now rewrite <- app_assoc.
    + unfold VimeoStreams.streams_of, VimeoStreams.unsupported. simpl.
      destruct (dash_manifest live_manifest_url url_path url) as [m|];
        rewrite (IH _ Hrest); simpl;
        unfold VimeoStreams.streams_of, VimeoStreams.unsupported; simpl;
        now rewrite <- ?app_assoc.
  - simpl in H. discriminate.
Qed.

Lemma for_cdns_missing (ty : stream_type) (cdns : list (string * option string))
    (acc : Acc) :
  forallb (fun entry => truthy (snd entry)) cdns = false ->
  exists acc' earlier,
    for_cdns ty cdns acc = Return acc' /\
    errors acc' =
      (earlier ++ ["This video requires a logged in session to view it"])%list.
Proof.
  revert acc. induction cdns as [|[name url] rest IH]; intros acc H.
  - discriminate.
  - simpl in H. cbn [VimeoStreams.for_cdns].
    destruct (truthy url) eqn:Hu.
    + simpl in H. destruct url as [url|]; [|discriminate].
      destruct ty; [apply IH; exact H|].
      destruct (dash_manifest live_manifest_url url_path url); apply IH; exact H.
    + eexists. exists (errors acc). split; reflexivity.
Qed.

(** X17. If the URL of any CDN entry under [hls] or [dash] is missing,
    [_get_streams] yields no stream at all, not even those of the entries
    before it or the progressive ones, and the last error it logs says that
    a logged in session is required. *)
Theorem missing_url_yields_nothing (mux_subtitles : bool) (videos : Config) :
  all_present (hls videos) && all_present (dash videos) = false ->
  fst (_get_streams mux_subtitles (Some videos)) = [] /\
  exists earlier,
    snd (_get_streams mux_subtitles (Some videos)) =
      (earlier ++ ["This video requires a logged in session to view it"])%list.
Proof.
  intros H. unfold VimeoStreams._get_streams, VimeoStreams.for_stream_types.
  destruct (all_present (hls videos)) eqn:Hh.
  - simpl in H. destruct (hls videos) as [hcdns|].
    + simpl in Hh. rewrite (for_cdns_present HLS hcdns _ Hh).
      destruct (dash videos) as [dcdns|]; [|discriminate].
      simpl in H.
      destruct (for_cdns_missing DASH dcdns
                  (mkAcc (streams (mkAcc [] []) ++ streams_of HLS (Some hcdns))
                         (errors (mkAcc [] []) ++ unsupported HLS (Some hcdns)))%list H)
        as (acc' & earlier & -> & He).
      simpl. split; [reflexivity|]. now exists earlier.
    + destruct (dash videos) as [dcdns|]; [|discriminate].
      simpl in H.
      destruct (for_cdns_missing DASH dcdns (mkAcc [] []) H)
        as (acc' & earlier & -> & He).
      simpl. split; [reflexivity|]. now exists earlier.
  - destruct (hls videos) as [hcdns|]; [|discriminate]. simpl in Hh.
    destruct (for_cdns_missing HLS hcdns (mkAcc [] []) Hh)
      as (acc' & earlier & -> & He).
    simpl. split; [reflexivity|]. now exists earlier.
Qed.

Lemma unsupported_hls (cdns : option (list (string * option string))) :
  unsupported HLS cdns = [].
Proof.
  unfold VimeoStreams.unsupported.
  induction (match cdns with Some l => l | None => [] end) as [|e l IH];
    [reflexivity|exact IH].
Qed.

(** X18. If no URL is missing, [_get_streams] yields, in this order, the
    streams of every HLS playlist, the streams of every DASH manifest whose
    path ends in [dash.mpd] or [master.json], and one HTTP stream per
    progressive download; each is wrapped in a [MuxedStream] when subtitles
    are to be muxed and there are text tracks.  A DASH entry with another
    path is passed over with an error in the log, and nothing else is
    logged. *)
Theorem streams_in_order (mux_subtitles : bool) (videos : Config) :
  all_present (hls videos) && all_present (dash videos) = true ->
  _get_streams mux_subtitles (Some videos) =
    (wrapped mux_subtitles videos
       (streams_of HLS (hls videos) ++ streams_of DASH (dash videos) ++
        map (fun s => (prog_quality s, HTTPStream (prog_url s)))
            (match progressive videos with Some l => l | None => [] end))%list,
     unsupported DASH (dash videos)).
Proof.
  intros H. apply andb_true_iff in H. destruct H as [Hh Hd].
  assert (Hflow : for_stream_types videos (mkAcc [] []) =
            Next (mkAcc (streams_of HLS (hls videos) ++ streams_of DASH (dash videos))%list
                        (unsupported DASH (dash videos)))).
  { unfold VimeoStreams.for_stream_types.
    destruct (hls videos) as [hcdns|]; destruct (dash videos) as [dcdns|];
      simpl in Hh, Hd;
      rewrite ?(for_cdns_present HLS hcdns _ Hh);
      rewrite ?(for_cdns_present DASH dcdns _ Hd);
      rewrite ?unsupported_hls; simpl; rewrite ?app_nil_r; reflexivity. }
  unfold VimeoStreams._get_streams. rewrite Hflow.
  unfold wrapped. cbn [streams errors]. rewrite <- app_assoc.
  destruct (mux_subtitles && non_empty_list (text_tracks videos)); reflexivity.
Qed.

(** X19. Muxing subtitles changes neither which streams are yielded, nor
    their names, nor their order, nor what is logged: with the option on,
    the names yielded and the log are the same as with the option off. *)
Theorem muxing_keeps_the_names (data : option Config) :
  map fst (fst (_get_streams true data)) = map fst (fst (_get_streams false data)) /\
  snd (_get_streams true data) = snd (_get_streams false data).
Proof.
  destruct data as [videos|]; [|split; reflexivity].
  unfold VimeoStreams._get_streams.
  destruct (for_stream_types videos (mkAcc [] [])) as [acc|acc];
    [|split; reflexivity].
  simpl. destruct (non_empty_list (text_tracks videos)); [|split; reflexivity].
  simpl. split; [|reflexivity].
  rewrite map_map. simpl. reflexivity.
Qed.

End Streams.

Lemma substreams_fold_keys (tracks : list TextTrack) (d : list (string * Stream)) :
  NoDup (map fst d) ->
  NoDup (map fst
    (fold_left (fun d s => dict_set (track_lang s)
                             (HTTPStream ("https://vimeo.com" ++ track_url s)) d)
       tracks d)).
Proof.
  revert d. induction tracks as [|t tracks IH]; intros d Hd; [exact Hd|].
  simpl. apply IH. now apply dict_set_keys.
Qed.

Lemma substreams_fold_other (tracks : list TextTrack) (d : list (string * Stream))
    (k : string) :
  Forall (fun t => track_lang t <> k) tracks ->
  dict_get k
    (fold_left (fun d s => dict_set (track_lang s)
                             (HTTPStream ("https://vimeo.com" ++ track_url s)) d)
       tracks d) = dict_get k d.
Proof.
  revert d. induction tracks as [|t tracks IH]; intros d H; [reflexivity|].
  inversion H as [|? ? Ht Hrest]; subst. simpl.
  rewrite (IH _ Hrest). now apply dict_get_set_other.
Qed.

(** X20. The subtitles handed to [MuxedStream] have one entry per language;
    when several text tracks have the same language, the last of them is
    the one that is used, with its URL put behind [https://vimeo.com]. *)
Theorem one_subtitle_per_language (tracks : list TextTrack) :
  NoDup (map fst (substreams_of tracks)) /\
  forall pre t post,
    tracks = (pre ++ t :: post)%list ->
    Forall (fun t' => track_lang t' <> track_lang t) post ->
    dict_get (track_lang t) (substreams_of tracks) =
      Some (HTTPStream ("https://vimeo.com" ++ track_url t)).
Proof.
  split.
  - apply substreams_fold_keys. constructor.
  - intros pre t post -> Hpost. unfold substreams_of.
    rewrite fold_left_app. simpl.
    rewrite (substreams_fold_other post _ _ Hpost).
    apply dict_get_set_same.
Qed.

Lemma missing_url_yields_nothing_witness :
  fst (_get_streams one_variant one_representation (fun u => u) path_after_host
         false (Some login_required)) = [].
Proof.
  refine (proj1 (missing_url_yields_nothing one_variant one_representation
            (fun u => u) path_after_host false login_required _)).
  reflexivity.
Defined.

Lemma streams_in_order_witness :
  map fst (fst (_get_streams one_variant one_representation (fun u => u)
                  path_after_host true (Some full_video))) =
    ["720p"; "1080p"; "360p"] /\
  snd (_get_streams one_variant one_representation (fun u => u)
         path_after_host true (Some full_video)) =
    ["Unsupported DASH path: /v/manifest.xml"].
Proof.
  rewrite (streams_in_order one_variant one_representation (fun u => u)
             path_after_host true full_video eq_refl).
  split; reflexivity.
Defined.

Lemma one_subtitle_per_language_witness :
  dict_get "en"
    (substreams_of [mkTextTrack "/texttrack/1.vtt" "en";
                    mkTextTrack "/texttrack/2.vtt" "de";
                    mkTextTrack "/texttrack/3.vtt" "en"]) =
    Some (HTTPStream "https://vimeo.com/texttrack/3.vtt").
Proof.
  refine (proj2 (one_subtitle_per_language _)
            [mkTextTrack "/texttrack/1.vtt" "en"; mkTextTrack "/texttrack/2.vtt" "de"]
            (mkTextTrack "/texttrack/3.vtt" "en") [] eq_refl _).
  constructor.
Defined.

End VimeoStreamsFacts.

(** ** The Showroom plugin *)

Module ShowroomFacts.
Import Str StrFacts Text TextFacts Showroom.

Lemma split_second_piece (t piece tail : string) :
  contains "_" t = false -> contains "_" piece = false ->
  tail = EmptyString \/ (exists rest, tail = "_" ++ rest) ->
  split "_" (t ++ "_" ++ piece ++ tail) !! 1%nat = Some piece.
Proof.
  intros Ht Hp Htail.
  change (t ++ "_" ++ piece ++ tail) with (t ++ String "_" (piece ++ tail)).
  rewrite (split_app_sep "_" t _ Ht). simpl.
  destruct Htail as [->|[rest ->]].
  - assert (E : piece ++ "" = piece) by (clear; induction piece; simpl; congruence).
    rewrite E, (contains_sep_false "_" piece Hp). reflexivity.
  - change (piece ++ "_" ++ rest) with (piece ++ String "_" rest).
    rewrite (split_app_sep "_" piece _ Hp). reflexivity.
Qed.

Section Weight.

Variable py_int : string -> option Z.

Local Abbreviation stream_weight := (stream_weight py_int).

Lemma stream_weight_piece (t piece tail : string) :
  contains "_" t = false -> contains "_" piece = false ->
  tail = EmptyString \/ (exists rest, tail = "_" ++ rest) ->
  stream_weight (t ++ "_" ++ piece ++ tail) tt =
    match py_int piece with
    | Some n => Ret (n, "bitrate") tt
    | None => Raise (OtherError "ValueError") tt
    end.
Proof.
  intros Ht Hp Htail. unfold Showroom.stream_weight.
  change (t ++ "_" ++ piece ++ tail) with (t ++ "_" ++ (piece ++ tail)).
  rewrite (contains_intro "_" t (piece ++ tail)).
  change (t ++ "_" ++ (piece ++ tail)) with (t ++ "_" ++ piece ++ tail).
  rewrite (split_second_piece t piece tail Ht Hp Htail).
  destruct (py_int piece); reflexivity.
Qed.

(** X21. [stream_weight] gives a name without ["_"] the weight
    [(0, "none")] without calling [int]; for any other name it reads the
    number from the piece between the first and the second ["_"] (or the
    end), so that in a name with two underscores the last piece plays no
    part, and raises a [ValueError] if that piece is no number.  It never
    raises an [IndexError]. *)
Theorem stream_weight_reads_the_second_piece :
  (forall name, contains "_" name = false ->
     stream_weight name tt = Ret (0, "none") tt) /\
  (forall t piece tail,
     contains "_" t = false -> contains "_" piece = false ->
     tail = EmptyString \/ (exists rest, tail = "_" ++ rest) ->
     stream_weight (t ++ "_" ++ piece ++ tail) tt =
       match py_int piece with
       | Some n => Ret (n, "bitrate") tt
       | None => Raise (OtherError "ValueError") tt
       end) /\
  (forall name, stream_weight name tt <> Raise IndexError tt).
Proof.
  split; [|split].
  - intros name H. unfold Showroom.stream_weight. now rewrite H.
  - apply stream_weight_piece.
  - intros name. unfold Showroom.stream_weight.
    destruct (contains "_" name) eqn:H; [|discriminate].
    apply contains_sep_split in H.
    destruct (split "_" name !! 1%nat) as [piece|] eqn:E.
    + destruct (py_int piece); discriminate.
    + apply lookup_ge_None in E. lia.
Qed.

End Weight.

Section Streams.

Variable format_int : Z -> string.

Local Abbreviation _get_streams := (_get_streams format_int).

(** The name and the URL yielded for an entry of the list. *)
Local Abbreviation yielded :=
  (map (fun s : string * Z * string =>
          (fst (fst s) ++ "_" ++ format_int (snd (fst s)), snd s))).

(** How a call of [_get_streams] can end. *)
Lemma get_streams_cases (url : string) (site : Site) (p : Plugin) :
  (exists p', _get_streams url site p = Ret [] p') \/
  (exists p', _get_streams url site p = Raise (OtherError "KeyError") p') \/
  (truthy (room_id site) = true /\ live_status site = LIVE_STATUS /\
   content_type site = Some "application/x-mpegURL" /\
   exists ty q first_url rest,
     streaming_url_list site = (ty, q, first_url) :: rest /\
     _get_streams url site p =
       Ret (yielded (streaming_url_list site))
           (mkPlugin (Some (room_name site))
              (requests p ++
               [url; "https://www.showroom-live.com/api/live/live_info";
                "https://www.showroom-live.com/api/live/streaming_url";
                first_url])
              (log p))).
Proof.
  unfold Showroom._get_streams, bind, modify, ret, raise.
  destruct (truthy (room_id site)) eqn:Hroom; [|left; eexists; reflexivity].
  destruct (live_status site =? LIVE_STATUS) eqn:Hlive;
    [|left; eexists; reflexivity].
  apply Z.eqb_eq in Hlive. cbn [negb].
  destruct (streaming_url_list site) as [|[[ty q] first_url] rest] eqn:Hl;
    [left; eexists; reflexivity|].
  destruct (content_type site) as [ct|] eqn:Hct;
    [|right; left; eexists; reflexivity].
  destruct (String.eqb ct "application/x-mpegURL") eqn:E;
    [|left; eexists; reflexivity].
  apply String.eqb_eq in E. subst ct.
  right. right. split; [reflexivity|]. split; [exact Hlive|]. split; [reflexivity|].
  exists ty, q, first_url, rest. split; [reflexivity|].
  cbn [negb]. unfold request, set_title. simpl.
  rewrite <- !app_assoc. reflexivity.
Qed.

(** X22. [Showroom._get_streams] yields streams only when the page names a
    room, the room is live ([live_status] is 2), the list of streaming URLs
    is not empty and the response for the first URL of the list has the
    content type [application/x-mpegURL]; then it yields one stream per
    entry of the list, in order, named [<type>_<quality>], after exactly
    four requests of which the last goes to the first URL of the list, and
    with the room name as title. *)
Theorem showroom_streams (url : string) (site : Site) (p : Plugin) :
  (forall ys p',
     _get_streams url site p = Ret ys p' -> ys <> [] ->
     truthy (room_id site) = true /\ live_status site = 2 /\
     content_type site = Some "application/x-mpegURL" /\
     ys = yielded (streaming_url_list site) /\
     title p' = Some (room_name site) /\ log p' = log p /\
     exists first_url,
       head (streaming_url_list site) = Some first_url /\
       requests p' =
         (requests p ++
          [url; "https://www.showroom-live.com/api/live/live_info";
           "https://www.showroom-live.com/api/live/streaming_url";
           snd first_url])%list) /\
  (truthy (room_id site) = true -> live_status site = 2 ->
   content_type site = Some "application/x-mpegURL" ->
   exists p', _get_streams url site p = Ret (yielded (streaming_url_list site)) p').
Proof.
  split.
  - intros ys p' Hr Hne.
    destruct (get_streams_cases url site p)
      as [[p1 H]|[[p1 H]|(Hroom & Hlive & Hct & ty & q & fu & rest & Hl & H)]];
      rewrite H in Hr; [injection Hr as <- <-; contradiction|discriminate|].
    injection Hr as <- <-.
    repeat (split; [first [assumption | reflexivity]|]).
    exists (ty, q, fu). rewrite Hl. split; reflexivity.
  - intros Hroom Hlive Hct.
    unfold Showroom._get_streams, bind, modify, ret, raise.
    rewrite Hroom, Hct. unfold LIVE_STATUS.
    apply Z.eqb_eq in Hlive. rewrite Hlive. cbn [negb].
    destruct (streaming_url_list site) as [|[[ty q] fu] rest];
      [eexists; reflexivity|].
    rewrite String.eqb_refl. eexists. reflexivity.
Qed.

Variable py_int : string -> option Z.

(** X23. The names [_get_streams] yields weigh what their entry says: for an
    entry whose type has no ["_"] in it and whose quality is written
    without ["_"] and read back by [int] as the same number,
    [stream_weight] of the yielded name is that quality, as a bitrate. *)
Theorem yielded_names_weigh_their_quality (url : string) (site : Site)
    (p p' : Plugin) (ys : list (string * string)) (name hls_url : string) :
  _get_streams url site p = Ret ys p' ->
  In (name, hls_url) ys ->
  exists ty q,
    In (ty, q, hls_url) (streaming_url_list site) /\
    name = ty ++ "_" ++ format_int q /\
    (contains "_" ty = false -> contains "_" (format_int q) = false ->
     py_int (format_int q) = Some q ->
     stream_weight py_int name tt = Ret (q, "bitrate") tt).
Proof.
  intros Hr Hin.
  destruct (get_streams_cases url site p)
    as [[p1 H]|[[p1 H]|(_ & _ & _ & ty0 & q0 & fu0 & rest0 & _ & H)]];
    rewrite H in Hr;
    [assert (Hys : ys = []) by congruence; subst ys; destruct Hin|discriminate|].
  assert (Hys : ys = yielded (streaming_url_list site)) by congruence.
  subst ys. clear Hr H.
  apply in_map_iff in Hin. destruct Hin as ([[ty q] u] & Heq & Hin).
  simpl in Heq. injection Heq as <- <-.
  exists ty, q. split; [exact Hin|]. split; [reflexivity|].
  intros Hty Hq Hint.
  pose proof (stream_weight_piece py_int ty (format_int q) "" Hty Hq
                (or_introl eq_refl)) as Hw.
  rewrite Hint in Hw.
  assert (E : format_int q ++ "" = format_int q)
    by (clear; induction (format_int q); simpl; congruence).
  rewrite E in Hw. exact Hw.
Qed.

End Streams.

Lemma stream_weight_reads_the_second_piece_witness :
  stream_weight decimal_int "hls_1024" tt = Ret (1024, "bitrate") tt /\
  stream_weight decimal_int "hls_all_0" tt = Raise (OtherError "ValueError") tt.
Proof.
  destruct (stream_weight_reads_the_second_piece decimal_int) as (_ & H & _).
  split.
  - exact (H "hls" "1024" "" eq_refl eq_refl (or_introl eq_refl)).
  - exact (H "hls" "all" "_0" eq_refl eq_refl
             (or_intror (ex_intro _ "0" eq_refl))).
Defined.

Lemma showroom_streams_witness :
  exists p',
    _get_streams decimal "https://www.showroom-live.com/r/a_room" live_site new_plugin =
      Ret [("hls_1024", "https://hls.example/a/1024.m3u8");
           ("hls_all_0", "https://hls.example/a/all.m3u8")] p'.
Proof.
  exact (proj2 (showroom_streams decimal "https://www.showroom-live.com/r/a_room"
                  live_site new_plugin) eq_refl eq_refl eq_refl).
Defined.

Lemma yielded_names_weigh_their_quality_witness :
  stream_weight decimal_int "hls_1024" tt = Ret (1024, "bitrate") tt.
Proof.
  destruct (yielded_names_weigh_their_quality decimal decimal_int
              "https://www.showroom-live.com/r/a_room" live_site new_plugin
              (state_of (_get_streams decimal "https://www.showroom-live.com/r/a_room"
                           live_site new_plugin))
              [("hls_1024", "https://hls.example/a/1024.m3u8");
               ("hls_all_0", "https://hls.example/a/all.m3u8")]
              "hls_1024" "https://hls.example/a/1024.m3u8" eq_refl
              (or_introl eq_refl))
    as (ty & q & Hin & Hname & Hw).
  destruct Hin as [Hin|[Hin|[]]]; injection Hin as <- <-.
  - apply Hw; reflexivity.
  - discriminate Hname.
Defined.

End ShowroomFacts.

(** ** Streams that share an API object *)

Module VimeoSharingFacts.
Import PyStr PyStrFacts Vimeo VimeoUrl VimeoFacts VimeoUrlFacts Scenario.
Local Open Scope list_scope.

(** X24. There is one [expiry_time] per API object, not per stream:
    constructing a second stream on the API object of a first one replaces
    the expiry time by that of the second stream's token.  From then on the
    first stream's URL token and the expiry time belong together only if
    both tokens have the same expiry. *)
Theorem second_stream_takes_over_expiry_time (a0 : VimeoAPI)
    (u1 u2 : str) (p1 p2 : ParseResult) (w1 w2 : World) :
  VimeoHLSStream_init a0 u1 p1 = Ret tt w1 ->
  VimeoHLSStream_init (api w1) u2 p2 = Ret tt w2 ->
  exists e1 e2,
    expiry_time (api w1) = Some e1 /\
    expiry_time (api w2) = Some e2 /\
    consistent w2 /\
    (consistent (mkWorld (api w2) (stream w1) (trace w1)) <-> e1 = e2) /\
    auth_data (api w2) = auth_data a0 /\
    last_updated (api w2) = last_updated a0 /\
    updating (api w2) = updating a0.
Proof.
  intros H1 H2.
  destruct (VimeoHLSStream_init_Ret _ _ _ _ H1) as (t1 & e1 & Ht1 & He1 & ->).
  destruct (VimeoHLSStream_init_Ret _ _ _ _ H2) as (t2 & e2 & Ht2 & He2 & ->).
  exists e1, e2. simpl.
  split; [reflexivity|]. split; [reflexivity|].
  split; [exists t2, e2; auto|].
  split; [|auto].
  split.
  - intros (t & e & Ht & He & Hexp). simpl in *. congruence.
  - intros ->. exists t1, e2. auto.
Qed.

Lemma second_stream_takes_over_expiry_time_witness :
  exists w2,
    VimeoHLSStream_init (api expired_world) other_url other_parsed = Ret tt w2 /\
    expiry_time (api w2) = Some 1700003630 /\
    ~ consistent (mkWorld (api w2) (stream expired_world) (trace expired_world)).
Proof.
  exists (state_of (VimeoHLSStream_init (api expired_world) other_url other_parsed)).
  assert (H2 : VimeoHLSStream_init (api expired_world) other_url other_parsed =
               Ret tt (state_of (VimeoHLSStream_init (api expired_world)
                                   other_url other_parsed)))
    by (vm_compute; reflexivity).
  destruct (second_stream_takes_over_expiry_time (VimeoAPI_init 1699990000)
              old_url other_url old_parsed other_parsed expired_world _
              eq_refl H2)
    as (e1 & e2 & He1 & He2 & _ & Hiff & _).
  split; [exact H2|]. split; [vm_compute; reflexivity|].
  intros Hc. apply Hiff in Hc. subst e2.
  vm_compute in He1, He2. congruence.
Defined.

End VimeoSharingFacts.
